(** * sdrangelToRaw: the capture-to-WAV converter of [main.go]

    A shallow embedding of the converter.  The program is one Go function,
    [main]: it reads a capture file, decodes the 32-byte header, checks the
    CRC-32 of the header, writes a text report, and re-encodes the sample
    words that follow the header into a RIFF/WAVE byte buffer.

    Go values are modelled as follows.
    - [byte] is [Init.Byte.byte]; fixed-width integers are [Z] with the
      wrap-around of each conversion and operation written out.
    - a [[]byte] read from the file is a [slice]: the elements visible
      through the slice plus the spare elements of the backing array up to
      its capacity (Go lets [s[:n]] reach into them).
    - arrays built by the program itself ([make], the composite literal,
      [append]) are [list byte]: their capacity is never observed.
    - panics of the Go runtime, the log lines and the file writes are kept
      in a small writer/error monad [M]. *)

From Stdlib Require Import String ZArith List Lia Bool.
From coqutil Require Import Byte Word.LittleEndianList.
From stdpp Require Import base list.
Import ListNotations.
Local Open Scope Z_scope.

Abbreviation byte := Init.Byte.byte.

(** ** Fixed-width integers of Go *)

Module GoInt.

(** Conversion to an unsigned type of [w] bits. *)
Definition unsigned (w z : Z) : Z := z mod 2 ^ w.

(** Conversion to a signed type of [w] bits (two's complement). *)
Definition signed (w z : Z) : Z := (z + 2 ^ (w - 1)) mod 2 ^ w - 2 ^ (w - 1).

Definition uint8 := unsigned 8.
Definition uint16 := unsigned 16.
Definition uint32 := unsigned 32.
Definition uint64 := unsigned 64.
Definition int32 := signed 32.
Definition int64 := signed 64.

(** [x << n] and [x >> n] at type uint32, [x * y] and [x / y] at uint32. *)
Definition shl_u32 (x n : Z) : Z := uint32 (Z.shiftl x n).
Definition shr_u32 (x n : Z) : Z := Z.shiftr x n.
Definition mul_u32 (x y : Z) : Z := uint32 (x * y).
Definition div_u32 (x y : Z) : Z := x / y.
(** [^x] at type uint32. *)
Definition not_u32 (x : Z) : Z := Z.lxor x 4294967295.

(** [x << n] at type uint64. *)
Definition shl_u64 (x n : Z) : Z := uint64 (Z.shiftl x n).

(** [x << n] and [x >> n] at type int32; [>>] is the arithmetic shift. *)
Definition shl_i32 (x n : Z) : Z := int32 (Z.shiftl x n).
Definition shr_i32 (x n : Z) : Z := Z.shiftr x n.

(** int64 arithmetic; [/] and [%] truncate toward zero. *)
Definition add_i64 (x y : Z) : Z := int64 (x + y).
Definition sub_i64 (x y : Z) : Z := int64 (x - y).
Definition mul_i64 (x y : Z) : Z := int64 (x * y).
Definition quo_i64 (x y : Z) : Z := int64 (Z.quot x y).
Definition rem_i64 (x y : Z) : Z := Z.rem x y.

End GoInt.
Import GoInt.

(** ** Effects: the trace of a run and the way it ends *)

Record Time := mkTime
  { wall : Z   (* nanoseconds within the second, [0, 1e9) *)
  ; ext : Z    (* seconds since January 1, year 1 *) }.

(** The text produced by [Header.String]: it renders exactly these five
    values, in this order, one per line (the formatting of the numbers and
    of the time is not modelled). *)
Record report := mkReport
  { r_SampleRate : Z
  ; r_CenterFreq : Z
  ; r_Timestamp : Time
  ; r_SampleSize : Z
  ; r_CRC : bool }.

Inductive file_data :=
  | Text (t : report)
  | Bytes (b : list byte).

Inductive event :=
  | Println (t : report)                          (* fmt.Println *)
  | Info (msg : string) (args : list Z)           (* logrus.Info *)
  | WriteFile (suffix : string) (d : file_data).  (* ioutil.WriteFile(output + suffix, d) *)

Inductive status :=
  | Exit (code : Z)          (* os.Exit *)
  | Fatal (msg : string)     (* logrus.Fatal: the program's explicit error exit *)
  | Panic (msg : string).    (* run-time panic of the Go runtime *)

Inductive outcome (A : Type) :=
  | Val (a : A)
  | Stop (s : status).
Arguments Val {A} a.
Arguments Stop {A} s.

Definition M (A : Type) : Type := (list event * outcome A)%type.

Definition ret {A} (a : A) : M A := ([], Val a).

Definition bind {A B} (m : M A) (f : A -> M B) : M B :=
  match m with
  | (tr, Val a) => let (tr', r) := f a in (tr ++ tr', r)
  | (tr, Stop s) => (tr, Stop s)
  end.

Definition emit (e : event) : M unit := ([e], Val tt).
Definition panic {A} (msg : string) : M A := ([], Stop (Panic msg)).
Definition os_Exit {A} (code : Z) : M A := ([], Stop (Exit code)).

(** [after tr m]: the events [tr] happened, then [m] runs. *)
Definition after {A} (tr : list event) (m : M A) : M A := (tr ++ fst m, snd m).

Declare Scope go_scope.
Delimit Scope go_scope with go.
Notation "x <- c1 ;; c2" := (bind c1 (fun x => c2))
  (at level 100, c1 at next level, right associativity) : go_scope.
Notation "c1 ;; c2" := (bind c1 (fun _ => c2))
  (at level 100, right associativity) : go_scope.
Local Open Scope go_scope.

(** ** Slices *)

Record slice := mkSlice
  { elems : list byte    (* s[0], ..., s[len(s)-1] *)
  ; spare : list byte }. (* the backing array from len(s) up to cap(s) *)

Definition len (s : slice) : Z := Z.of_nat (length (elems s)).
Definition cap (s : slice) : Z := Z.of_nat (length (elems s) + length (spare s)).
Definition backing (s : slice) : list byte := elems s ++ spare s.

Definition sub (s : slice) (lo hi : Z) : slice :=
  {| elems := take (Z.to_nat (hi - lo)) (drop (Z.to_nat lo) (backing s));
     spare := drop (Z.to_nat hi) (backing s) |}.

(** [s[lo:hi]]: panics unless [0 <= lo <= hi <= cap(s)]. *)
Definition slice_range (s : slice) (lo hi : Z) : M slice :=
  if (0 <=? lo) && (lo <=? hi) && (hi <=? cap s)
  then ret (sub s lo hi)
  else panic "slice bounds out of range".

(** [s[:hi]] is [s[0:hi]]. *)
Definition slice_to (s : slice) (hi : Z) : M slice := slice_range s 0 hi.

(** [s[lo:]] is [s[lo:len(s)]]. *)
Definition slice_from (s : slice) (lo : Z) : M slice := slice_range s lo (len s).

(** [s[i]]: panics unless [0 <= i < len(s)]. *)
Definition index (l : list byte) (i : Z) : M byte :=
  if (0 <=? i) && (i <? Z.of_nat (length l))
  then match l !! Z.to_nat i with
       | Some b => ret b
       | None => panic "index out of range"
       end
  else panic "index out of range".

(** [l[i] = b]: panics unless [0 <= i < len(l)]. *)
Definition assign (l : list byte) (i : Z) (b : byte) : M (list byte) :=
  if (0 <=? i) && (i <? Z.of_nat (length l))
  then ret (<[Z.to_nat i := b]> l)
  else panic "index out of range".

(** [make([]byte, n)] *)
Definition make (n : nat) : list byte := repeat Byte.x00 n.

(** [l[lo:]] on an array built by the program. *)
Definition list_from (l : list byte) (lo : Z) : M (list byte) :=
  if (0 <=? lo) && (lo <=? Z.of_nat (length l))
  then ret (drop (Z.to_nat lo) l)
  else panic "slice bounds out of range".

(** ** encoding/binary, little endian *)

Module LittleEndian.

Definition u32 (b : byte) : Z := uint32 (byte.unsigned b).
Definition u64 (b : byte) : Z := uint64 (byte.unsigned b).

(** [_ = b[3]; return uint32(b[0]) | uint32(b[1])<<8 | uint32(b[2])<<16 | uint32(b[3])<<24] *)
Definition Uint32 (b : slice) : M Z :=
  index (elems b) 3 ;;
  b0 <- index (elems b) 0 ;;
  b1 <- index (elems b) 1 ;;
  b2 <- index (elems b) 2 ;;
  b3 <- index (elems b) 3 ;;
  ret (Z.lor (Z.lor (Z.lor (u32 b0) (shl_u32 (u32 b1) 8))
                    (shl_u32 (u32 b2) 16))
             (shl_u32 (u32 b3) 24)).

(** [_ = b[7]; return uint64(b[0]) | uint64(b[1])<<8 | ... | uint64(b[7])<<56] *)
Definition Uint64 (b : slice) : M Z :=
  index (elems b) 7 ;;
  b0 <- index (elems b) 0 ;;
  b1 <- index (elems b) 1 ;;
  b2 <- index (elems b) 2 ;;
  b3 <- index (elems b) 3 ;;
  b4 <- index (elems b) 4 ;;
  b5 <- index (elems b) 5 ;;
  b6 <- index (elems b) 6 ;;
  b7 <- index (elems b) 7 ;;
  ret (Z.lor (Z.lor (Z.lor (Z.lor (Z.lor (Z.lor (Z.lor
        (u64 b0) (shl_u64 (u64 b1) 8)) (shl_u64 (u64 b2) 16))
        (shl_u64 (u64 b3) 24)) (shl_u64 (u64 b4) 32))
        (shl_u64 (u64 b5) 40)) (shl_u64 (u64 b6) 48))
        (shl_u64 (u64 b7) 56)).

(** [_ = b[1]; b[0] = byte(v); b[1] = byte(v >> 8)] *)
Definition PutUint16 (b : list byte) (v : Z) : M (list byte) :=
  index b 1 ;;
  b <- assign b 0 (byte.of_Z v) ;;
  assign b 1 (byte.of_Z (Z.shiftr v 8)).

(** [_ = b[3]; b[0] = byte(v); b[1] = byte(v >> 8); b[2] = byte(v >> 16); b[3] = byte(v >> 24)] *)
Definition PutUint32 (b : list byte) (v : Z) : M (list byte) :=
  index b 3 ;;
  b <- assign b 0 (byte.of_Z v) ;;
  b <- assign b 1 (byte.of_Z (Z.shiftr v 8)) ;;
  b <- assign b 2 (byte.of_Z (Z.shiftr v 16)) ;;
  assign b 3 (byte.of_Z (Z.shiftr v 24)).

End LittleEndian.

(** ** hash/crc32: the table-driven update of the standard library *)

Module crc32.

(** The IEEE polynomial, in reversed bit order. *)
Definition IEEE : Z := 0xedb88320.

(** One round of the inner loop of [simplePopulateTable]:
    [if crc&1 == 1 { crc = (crc >> 1) ^ poly } else { crc >>= 1 }]. *)
Definition round (poly crc : Z) : Z :=
  if Z.land crc 1 =? 1 then Z.lxor (shr_u32 crc 1) poly else shr_u32 crc 1.

(** [simpleMakeTable]: entry [i] is eight rounds applied to [uint32(i)]. *)
Definition simpleMakeTable (poly : Z) : list Z :=
  map (fun i => Nat.iter 8 (round poly) (uint32 (Z.of_nat i))) (seq 0 256).

Definition IEEETable : list Z := Eval vm_compute in simpleMakeTable IEEE.

(** [tab[i]] for a [*Table], an array of 256 entries. *)
Definition entry (tab : list Z) (i : Z) : Z := nth (Z.to_nat i) tab 0.

(** [crc = ^crc; for _, v := range p { crc = tab[byte(crc)^v] ^ (crc >> 8) }; return ^crc] *)
Definition simpleUpdate (crc : Z) (tab : list Z) (p : list byte) : Z :=
  not_u32
    (fold_left
       (fun crc v => Z.lxor (entry tab (Z.lxor (uint8 crc) (byte.unsigned v)))
                            (shr_u32 crc 8))
       p (not_u32 crc)).

(** [ChecksumIEEE(data)] is [Update(0, IEEETable, data)]; the variants the
    package may select at run time (slicing by 8, architecture-specific
    code) compute the same function as [simpleUpdate]. *)
Definition ChecksumIEEE (data : slice) : Z := simpleUpdate 0 IEEETable (elems data).

End crc32.

(** ** time: [Unix] and [UnixMilli] of the standard library *)

Module time.

(** Seconds from January 1, year 1 to January 1, 1970:
    [(1969*365 + 1969/4 - 1969/100 + 1969/400) * 86400]. *)
Definition unixToInternal : Z := (1969 * 365 + 1969 / 4 - 1969 / 100 + 1969 / 400) * 86400.

(** [unixTime(sec, nsec)] is [Time{uint64(nsec), sec + unixToInternal, Local}]. *)
Definition unixTime (sec nsec : Z) : Time :=
  {| wall := uint64 nsec; ext := add_i64 sec unixToInternal |}.

(** [Unix(sec, nsec)]: normalises [nsec] into [0, 1e9). *)
Definition Unix (sec nsec : Z) : Time :=
  if (nsec <? 0) || (1000000000 <=? nsec) then
    let n := quo_i64 nsec 1000000000 in
    let sec := add_i64 sec n in
    let nsec := sub_i64 nsec (mul_i64 n 1000000000) in
    if nsec <? 0
    then unixTime (sub_i64 sec 1) (int32 (add_i64 nsec 1000000000))
    else unixTime sec (int32 nsec)
  else unixTime sec (int32 nsec).

(** [UnixMilli(msec)] is [Unix(msec/1e3, (msec%1e3)*1e6)]. *)
Definition UnixMilli (msec : Z) : Time :=
  Unix (quo_i64 msec 1000) (mul_i64 (rem_i64 msec 1000) 1000000).

End time.

(** ** The program *)

Record Header := mkHeader
  { SampleRate : Z
  ; CenterFreq : Z
  ; Timestamp : Time
  ; SampleSize : Z
  ; Reserved : Z
  ; CRC : Z
  ; CRCValid : bool }.

(** [(h *Header) String()]: prints SampleRate, CenterFreq, Timestamp,
    SampleSize and CRCValid; Reserved and CRC are not printed. *)
Definition Header_String (h : Header) : report :=
  {| r_SampleRate := SampleRate h;
     r_CenterFreq := CenterFreq h;
     r_Timestamp := Timestamp h;
     r_SampleSize := SampleSize h;
     r_CRC := CRCValid h |}.

Local Open Scope byte_scope.

(** Lines 106-120: the composite literal [waveHeader]. *)
Definition waveHeader (sampleRateBytes sampleRateCalcBytes : list byte) : M (list byte) :=
  r0 <- index sampleRateBytes 0 ;;
  r1 <- index sampleRateBytes 1 ;;
  r2 <- index sampleRateBytes 2 ;;
  r3 <- index sampleRateBytes 3 ;;
  c0 <- index sampleRateCalcBytes 0 ;;
  c1 <- index sampleRateCalcBytes 1 ;;
  c2 <- index sampleRateCalcBytes 2 ;;
  c3 <- index sampleRateCalcBytes 3 ;;
  ret [ "R"; "I"; "F"; "F";
        Byte.x00; Byte.x00; Byte.x00; Byte.x00;
        "W"; "A"; "V"; "E";
        "f"; "m"; "t"; " ";
        Byte.x10; Byte.x00; Byte.x00; Byte.x00;
        Byte.x01; Byte.x00;
        Byte.x02; Byte.x00;
        r0; r1; r2; r3;
        c0; c1; c2; c3;
        Byte.x04; Byte.x00;
        Byte.x10; Byte.x00;
        "d"; "a"; "t"; "a";
        Byte.x00; Byte.x00; Byte.x00; Byte.x00 ].

(** Lines 128-137: the body of the loop, run [n] times from index [i].
    The bound [len(content[startIndex:])/4] does not change during the loop
    ([content] is never assigned), so [main] evaluates it once and passes the
    number of iterations. *)
Fixpoint samples_loop (content : slice) (startIndex : Z) (n : nat) (i : Z)
    (body : list byte) : M (list byte) :=
  match n with
  | O => ret body
  | S n' =>
      let index := startIndex + i * 4 in
      s <- slice_from content index ;;
      u <- LittleEndian.Uint32 s ;;
      let sample := int32 u in
      let sample := shl_i32 sample 8 in
      let sample := shr_i32 sample 16 in
      sampleBytes <- LittleEndian.PutUint16 (make 2) (uint16 sample) ;;
      samples_loop content startIndex n' (i + 1) (body ++ sampleBytes)
  end.

(** Lines 66-72: [var h Header] and the six field assignments.  The result
    is [h] as it stands after line 72 (Timestamp and CRCValid still hold
    their zero values) together with the local [timestamp]. *)
Definition main_fields (header : slice) : M (Header * Z) :=
  b <- slice_range header 0 4 ;;
  h_SampleRate <- LittleEndian.Uint32 b ;;
  b <- slice_range header 4 12 ;;
  h_CenterFreq <- LittleEndian.Uint64 b ;;
  b <- slice_range header 12 20 ;;
  timestamp <- LittleEndian.Uint64 b ;;
  b <- slice_range header 20 24 ;;
  h_SampleSize <- LittleEndian.Uint32 b ;;
  b <- slice_range header 24 28 ;;
  h_Reserved <- LittleEndian.Uint32 b ;;
  b <- slice_range header 28 32 ;;
  h_CRC <- LittleEndian.Uint32 b ;;
  ret (mkHeader h_SampleRate h_CenterFreq (mkTime 0 0) h_SampleSize
                h_Reserved h_CRC false, timestamp).

(** Lines 62-84: the header part of [main]. *)
Definition main_header (content : slice) : M Header :=
  (* extract header, first 32 bytes *)
  header <- slice_to content 32 ;;
  hts <- main_fields header ;;
  let h := fst hts in
  let timestamp := snd hts in
  (* calc crc *)
  b <- slice_to header 28 ;;
  let crc := crc32.ChecksumIEEE b in
  (* check crc *)
  let h := mkHeader (SampleRate h) (CenterFreq h) (Timestamp h) (SampleSize h)
                    (Reserved h) (CRC h) (crc =? CRC h) in
  (if negb (CRCValid h) then emit (Info "CRC mismatch" []) else ret tt) ;;
  (* convert timestamp to time.Time *)
  ret (mkHeader (SampleRate h) (CenterFreq h) (time.UnixMilli (int64 timestamp))
                (SampleSize h) (Reserved h) (CRC h) (CRCValid h)).

(** Line 96: [(sampleRate * 16 * 2) / 8] at type uint32. *)
Definition sampleRateCalc (sampleRate : Z) : Z :=
  div_u32 (mul_u32 (mul_u32 sampleRate 16) 2) 8.

(** Lines 95-120: the 44 bytes of [waveHeader] for a sample rate. *)
Definition main_waveHeader (sampleRate : Z) : M (list byte) :=
  sampleRateBytes <- LittleEndian.PutUint32 (make 4) (uint32 sampleRate) ;;
  sampleRateCalcBytes <-
    LittleEndian.PutUint32 (make 4) (uint32 (sampleRateCalc sampleRate)) ;;
  waveHeader sampleRateBytes sampleRateCalcBytes.

(** Lines 146-169: the two size fields are written into [body]. *)
Definition main_sizes (body : list byte) : M (list byte) :=
  (* calc file size, write file size to wave header *)
  let fileSize := Z.of_nat (length body) - 8 in
  fileSizeBytes <- LittleEndian.PutUint32 (make 4) (uint32 fileSize) ;;
  f <- index fileSizeBytes 0 ;; body <- assign body 4 f ;;
  f <- index fileSizeBytes 1 ;; body <- assign body 5 f ;;
  f <- index fileSizeBytes 2 ;; body <- assign body 6 f ;;
  f <- index fileSizeBytes 3 ;; body <- assign body 7 f ;;
  (* calc data size, write data size to wave header *)
  let dataSize := Z.of_nat (length body) - 44 in
  dataSizeBytes <- LittleEndian.PutUint32 (make 4) (uint32 dataSize) ;;
  d <- index dataSizeBytes 0 ;; body <- assign body 40 d ;;
  d <- index dataSizeBytes 1 ;; body <- assign body 41 d ;;
  d <- index dataSizeBytes 2 ;; body <- assign body 42 d ;;
  d <- index dataSizeBytes 3 ;; assign body 43 d.

(** [main], from line 62 on: [content] is what [ioutil.ReadAll] returned.
    Opening and reading the input and the two [ioutil.WriteFile] calls are
    taken to succeed (their failure is a [logrus.Fatal]).  Values of type
    [int] are not wrapped: they are lengths and indices below [2^63]. *)
Definition main (content : slice) : M unit :=
  h <- main_header content ;;
  (* print header, write header to human-readable file *)
  emit (Println (Header_String h)) ;;
  emit (WriteFile "-info.txt" (Text (Header_String h))) ;;
  body <- main_waveHeader (SampleRate h) ;;
  let startIndex := 32 in
  tail <- slice_from content startIndex ;;
  body <- samples_loop content startIndex (Z.to_nat (Z.quot (len tail) 4)) 0 body ;;
  bodySamples <- list_from body 44 ;;
  let bodySamplesLen := Z.quot (Z.of_nat (length bodySamples)) 2 in
  emit (Info "body samples length: " [Z.rem bodySamplesLen 8]) ;;
  body <- main_sizes body ;;
  (* write body to file, close file, print success, exit *)
  emit (WriteFile "-iq.wav" (Bytes body)) ;;
  emit (Info "done" []) ;;
  os_Exit 0.

Local Close Scope byte_scope.

(** ** Observations on a run *)

Definition trace {A} (m : M A) : list event := fst m.
Definition ending {A} (m : M A) : outcome A := snd m.

(** The data of every [ioutil.WriteFile] to [output + suffix], in order. *)
Fixpoint writes (suffix : string) (tr : list event) : list file_data :=
  match tr with
  | [] => []
  | WriteFile s d :: tr' =>
      if String.eqb s suffix then d :: writes suffix tr' else writes suffix tr'
  | _ :: tr' => writes suffix tr'
  end.

(** The lines printed on standard output. *)
Fixpoint printed (tr : list event) : list report :=
  match tr with
  | [] => []
  | Println t :: tr' => t :: printed tr'
  | _ :: tr' => printed tr'
  end.

(** The messages logged with [logrus.Info]. *)
Fixpoint logged (tr : list event) : list string :=
  match tr with
  | [] => []
  | Info msg _ :: tr' => msg :: logged tr'
  | _ :: tr' => logged tr'
  end.

(** ** Reference definitions, written after the specification *)

Module Spec.

(** Bytes [lo:hi) of a buffer, and their value as a little-endian
    unsigned integer. *)
Definition bytes_at (lo hi : nat) (buf : list byte) : list byte :=
  take (hi - lo) (drop lo buf).
Definition le (lo hi : nat) (buf : list byte) : Z := le_combine (bytes_at lo hi buf).

(** The six decoded fields of the capture header. *)
Record CaptureHeader := mkCaptureHeader
  { sample_rate : Z
  ; center_freq : Z
  ; raw_timestamp : Z
  ; sample_size : Z
  ; reserved : Z
  ; stored_crc : Z }.

(** The byte layout of the header: offsets and widths of the six fields. *)
Definition decode (buf : list byte) : CaptureHeader :=
  {| sample_rate := le 0 4 buf;
     center_freq := le 4 12 buf;
     raw_timestamp := le 12 20 buf;
     sample_size := le 20 24 buf;
     reserved := le 24 28 buf;
     stored_crc := le 28 32 buf |}.

(** The same layout read as an encoder: the six fields written back in
    order, little endian, with widths 4, 8, 8, 4, 4, 4.  The program has no
    encoder of its own. *)
Definition encode (h : CaptureHeader) : list byte :=
  le_split 4 (sample_rate h) ++ le_split 8 (center_freq h) ++
  le_split 8 (raw_timestamp h) ++ le_split 4 (sample_size h) ++
  le_split 4 (reserved h) ++ le_split 4 (stored_crc h).

(** CRC-32 with the IEEE polynomial (CRC-32/ISO-HDLC), one bit at a time:
    reflected polynomial 0xEDB88320, initial value and final xor
    0xFFFFFFFF. *)
Definition crc_bit (c : Z) : Z :=
  if Z.odd c then Z.lxor (c / 2) 0xEDB88320 else c / 2.
Definition crc_byte (c : Z) (b : byte) : Z :=
  Nat.iter 8 crc_bit (Z.lxor c (byte.unsigned b)).
Definition crc32 (msg : list byte) : Z :=
  Z.lxor (fold_left crc_byte msg 0xFFFFFFFF) 0xFFFFFFFF.

(** Bit [k] of byte [i] flipped. *)
Definition flip_bit (i k : nat) (buf : list byte) : list byte :=
  alter (fun b => byte.of_Z (Z.lxor (byte.unsigned b) (2 ^ Z.of_nat k))) i buf.

(** The value of a [w]-bit pattern [v] read as a signed integer. *)
Definition sign_extend (w v : Z) : Z := if v <? 2 ^ (w - 1) then v else v - 2 ^ w.

(** A 4-byte group as a 32-bit little-endian signed integer. *)
Definition int32_le (g : list byte) : Z := sign_extend 32 (le_combine g).
(** Left shift by 8 bits within 32 bits, then arithmetic right shift by 16. *)
Definition shift_rule (v : Z) : Z := sign_extend 32 ((v * 2 ^ 8) mod 2 ^ 32) / 2 ^ 16.
(** Truncation to a 16-bit signed value. *)
Definition truncate16 (v : Z) : Z := sign_extend 16 (v mod 2 ^ 16).
(** Bits [8:24) of a 32-bit value. *)
Definition bits_8_24 (u : Z) : Z := (u / 2 ^ 8) mod 2 ^ 16.

(** The payload of a sample stream: one 16-bit value, in 2 little-endian
    bytes, for each full 4-byte group; a trailing partial group gives
    nothing. *)
Fixpoint payload (stream : list byte) : list byte :=
  match stream with
  | b0 :: b1 :: b2 :: b3 :: rest =>
      le_split 2 (truncate16 (shift_rule (int32_le [b0; b1; b2; b3]))) ++ payload rest
  | _ => []
  end.

(** The 44-byte RIFF/WAVE preamble, field by field. *)
Definition tag (s : string) : list byte := list_byte_of_string s.
Definition preamble (riff_size sample_rate byte_rate data_size : Z) : list byte :=
  tag "RIFF" ++ le_split 4 riff_size ++ tag "WAVE" ++
  tag "fmt " ++ le_split 4 16 ++ le_split 2 1 ++ le_split 2 2 ++
  le_split 4 sample_rate ++ le_split 4 byte_rate ++
  le_split 2 4 ++ le_split 2 16 ++
  tag "data" ++ le_split 4 data_size.

(** Nanoseconds from the Unix epoch (UTC) to the instant of a [Time]. *)
Definition unix_nanos (t : Time) : Z :=
  (ext t - time.unixToInternal) * 10 ^ 9 + wall t.

End Spec.

(** ** Closed forms of the stages of [main] *)

(** Lines 130-135: the 16-bit value written for a decoded group value [u]. *)
Definition sample_of (u : Z) : Z := uint16 (shr_i32 (shl_i32 (int32 u) 8) 16).

(** The 32 bytes that [content[:32]] yields when the capacity allows it. *)
Definition header32 (content : slice) : list byte := take 32 (backing content).

(** The header that [main_header] returns on a buffer whose first 32 bytes
    are the first 32 of [e]. *)
Definition decoded (e : list byte) : Header :=
  {| SampleRate := Spec.le 0 4 e;
     CenterFreq := Spec.le 4 12 e;
     Timestamp := time.UnixMilli (int64 (Spec.le 12 20 e));
     SampleSize := Spec.le 20 24 e;
     Reserved := Spec.le 24 28 e;
     CRC := Spec.le 28 32 e;
     CRCValid := Spec.crc32 (Spec.bytes_at 0 28 e) =? Spec.le 28 32 e |}.

(** The container that [main] writes for a sample rate and a sample stream. *)
Definition container (sampleRate : Z) (stream : list byte) : list byte :=
  let data := Spec.payload stream in
  Spec.preamble (44 + Z.of_nat (length data) - 8) sampleRate
                (sampleRateCalc sampleRate) (Z.of_nat (length data)) ++ data.

(** The log line of lines 79-81. *)
Definition crc_log (h : Header) : list event :=
  if CRCValid h then [] else [Info "CRC mismatch" []].

(** ** Inputs used as examples *)

(** The capture of the specification's scenario: sample rate 8000, all other
    fields zero, the matching CRC, and the samples 0x00010000, 0xFFFE0000. *)
Definition header8000 : list byte :=
  [Byte.x40; Byte.x1f; Byte.x00; Byte.x00] ++ repeat Byte.x00 24.
Definition capture8000 : slice :=
  {| elems := header8000 ++ le_split 4 (Spec.crc32 header8000) ++
              [Byte.x00; Byte.x00; Byte.x01; Byte.x00;
               Byte.x00; Byte.x00; Byte.xfe; Byte.xff];
     spare := [] |}.

(** The same capture with a ninth sample byte (a partial group) and with
    center frequency, timestamp, sample size and reserved bytes set, so that
    the stored CRC no longer matches. *)
Definition capture8000_noisy : slice :=
  {| elems := [Byte.x40; Byte.x1f; Byte.x00; Byte.x00] ++ repeat Byte.x5a 24 ++
              [Byte.x01; Byte.x02; Byte.x03; Byte.x04] ++
              [Byte.x00; Byte.x00; Byte.x01; Byte.x00;
               Byte.x00; Byte.x00; Byte.xfe; Byte.xff; Byte.x7f];
     spare := [] |}.

(** The capture of the scenario with the other header fields set and a
    stored CRC that does not match; the sample bytes are unchanged. *)
Definition capture8000_other : slice :=
  {| elems := [Byte.x40; Byte.x1f; Byte.x00; Byte.x00] ++ repeat Byte.xa5 24 ++
              [Byte.x00; Byte.x00; Byte.x00; Byte.x00] ++
              [Byte.x00; Byte.x00; Byte.x01; Byte.x00;
               Byte.x00; Byte.x00; Byte.xfe; Byte.xff];
     spare := [] |}.

(** A file of 31 bytes as [ioutil.ReadAll] returns it: the buffer it reads
    into is allocated with capacity 512. *)
Definition input31 : slice :=
  {| elems := repeat Byte.xff 31; spare := repeat Byte.x00 481 |}.

(** A header whose sample rate is 2^27 = 134217728, and no samples. *)
Definition capture_rate_2_27 : slice :=
  {| elems := [Byte.x00; Byte.x00; Byte.x00; Byte.x08] ++ repeat Byte.x00 28;
     spare := [] |}.

(** A header whose raw timestamp is 2^64 - 1, and no samples. *)
Definition capture_timestamp_max : slice :=
  {| elems := repeat Byte.x00 12 ++ repeat Byte.xff 8 ++ repeat Byte.x00 12;
     spare := [] |}.

(** A capture of 32 + 2^33 zero bytes: 2^31 sample groups. *)
Definition capture_8GiB : slice :=
  {| elems := repeat Byte.x00 (Z.to_nat 8589934624); spare := [] |}.

(** ** The claims that do not hold as stated *)

(** A buffer shorter than the header ends in an explicit error and nothing
    is written. *)
Definition truncated_input_claim (content : slice) : Prop :=
  exists msg,
    ending (main content) = Stop (Fatal msg) /\
    writes "-info.txt" (trace (main content)) = [] /\
    writes "-iq.wav" (trace (main content)) = [].

(** Bytes [4:8) and [40:44) of the container hold its length minus 8 and
    minus 44. *)
Definition size_fields_claim (content : slice) : Prop :=
  exists w,
    writes "-iq.wav" (trace (main content)) = [Bytes w] /\
    Spec.le 4 8 w = Z.of_nat (length w) - 8 /\
    Spec.le 40 44 w = Z.of_nat (length w) - 44.

(** Bytes [28:32) of the container hold four times the decoded sample rate. *)
Definition byte_rate_claim (content : slice) : Prop :=
  exists w,
    writes "-iq.wav" (trace (main content)) = [Bytes w] /\
    Spec.le 28 32 w = Spec.le 0 4 (elems content) * 4.

(** The timestamp is the instant [raw_timestamp] milliseconds after the epoch. *)
Definition timestamp_claim (content : slice) : Prop :=
  exists h,
    ending (main_header content) = Val h /\
    Spec.unix_nanos (Timestamp h) = Spec.le 12 20 (elems content) * 10 ^ 6.

(** ** The two conversion functions at the end of [main.go] *)

(** Conversion to int16, and [x >> n] at type int16 (arithmetic). *)
Definition int16 : Z -> Z := signed 16.
Definition shr_i16 (x n : Z) : Z := Z.shiftr x n.

(** [l[i] = x] on a slice of any element type: panics unless
    [0 <= i < len(l)]. *)
Definition set_index {A} (l : list A) (i : Z) (x : A) : M (list A) :=
  if (0 <=? i) && (i <? Z.of_nat (length l))
  then ret (<[Z.to_nat i := x]> l)
  else panic "index out of range".

(** Lines 209-212: [for i, sample := range samples], from index [i] on. *)
Fixpoint convertToByte_loop (samples : list Z) (i : Z) (result : list byte)
    : M (list byte) :=
  match samples with
  | [] => ret result
  | sample :: rest =>
      result <- assign result (i * 2) (byte.of_Z sample) ;;
      result <- assign result (i * 2 + 1) (byte.of_Z (shr_i16 sample 8)) ;;
      convertToByte_loop rest (i + 1) result
  end.

(** [convertToByte(samples []int16) []byte] *)
Definition convertToByte (samples : list Z) : M (list byte) :=
  let result := make (length samples * 2) in
  convertToByte_loop samples 0 result.

(** Lines 196-198: [for i, sample := range samples], from index [i] on. *)
Fixpoint convertTo16Bit_loop (samples : list Z) (i : Z) (result : list Z)
    : M (list Z) :=
  match samples with
  | [] => ret result
  | sample :: rest =>
      result <- set_index result i (int16 (shr_u32 sample 16)) ;;
      convertTo16Bit_loop rest (i + 1) result
  end.

(** [convertTo16Bit(samples []uint32) []byte] *)
Definition convertTo16Bit (samples : list Z) : M (list byte) :=
  let result := repeat 0 (length samples) in
  result <- convertTo16Bit_loop samples 0 result ;;
  convertToByte result.

(** ** [main] from its first line, with the failures of the file system *)

(** What opening and reading the input file gives. *)
Inductive read_result :=
  | OpenError
  | ReadError
  | Content (content : slice).

(** The file system as [main] meets it: the outcome of reading a path, of
    writing a path, and of closing the input file. *)
Record env := mkEnv
  { files : string -> read_result
  ; write_ok : string -> bool
  ; close_ok : bool }.

(** [logrus.Fatal(msg)] and [logrus.WithError(err).Fatal(msg)]. *)
Definition logrus_Fatal {A} (msg : string) : M A := ([], Stop (Fatal msg)).

(** [err = ioutil.WriteFile(output + suffix, d, 0644); if err != nil { Fatal }] *)
Definition ioutil_WriteFile (e : env) (output suffix : string) (d : file_data)
    : M unit :=
  if write_ok e (output ++ suffix)%string
  then emit (WriteFile suffix d)
  else logrus_Fatal "error writing file".

(** [main] from line 62 on, as [main] above but with the failures of the
    two writes and of closing the input file. *)
Definition main_io (e : env) (output : string) (content : slice) : M unit :=
  h <- main_header content ;;
  emit (Println (Header_String h)) ;;
  ioutil_WriteFile e output "-info.txt" (Text (Header_String h)) ;;
  body <- main_waveHeader (SampleRate h) ;;
  let startIndex := 32 in
  tail <- slice_from content startIndex ;;
  body <- samples_loop content startIndex (Z.to_nat (Z.quot (len tail) 4)) 0 body ;;
  bodySamples <- list_from body 44 ;;
  let bodySamplesLen := Z.quot (Z.of_nat (length bodySamples)) 2 in
  emit (Info "body samples length: " [Z.rem bodySamplesLen 8]) ;;
  body <- main_sizes body ;;
  ioutil_WriteFile e output "-iq.wav" (Bytes body) ;;
  (if close_ok e then ret tt else logrus_Fatal "error closing file") ;;
  emit (Info "done" []) ;;
  os_Exit 0.

(** [main], lines 31-188.  [input] and [output] are the values of the two
    flags after [flag.Parse] (the default of [output] is "./raw");
    [viper.GetString] returns the value of the flag bound to the key. *)
Definition main_program (e : env) (input output : string) : M unit :=
  if String.eqb input "" then logrus_Fatal "input file is required" else
  match files e input with
  | OpenError => logrus_Fatal "error opening file"
  | ReadError => logrus_Fatal "error reading file"
  | Content content => main_io e output content
  end.

(** What [main_io] does on a buffer of at least 32 bytes, by the outcome of
    the file operations. *)
Definition main_io_run (e : env) (output : string) (content : slice) : M unit :=
  let h := decoded (elems content) in
  let data := Spec.payload (drop 32 (elems content)) in
  after (crc_log h ++ [Println (Header_String h)])
    (if write_ok e (output ++ "-info.txt")%string then
       after [WriteFile "-info.txt" (Text (Header_String h));
              Info "body samples length: "
                   [Z.rem (Z.quot (Z.of_nat (length data)) 2) 8]]
         (if write_ok e (output ++ "-iq.wav")%string then
            after [WriteFile "-iq.wav"
                     (Bytes (container (SampleRate h) (drop 32 (elems content))))]
              (if close_ok e then ([Info "done" []], Stop (Exit 0))
               else logrus_Fatal "error closing file")
          else logrus_Fatal "error writing file")
     else logrus_Fatal "error writing file").

(** ** More reference definitions *)

(** The little-endian values of the full 4-byte groups of a stream. *)
Fixpoint groups (stream : list byte) : list Z :=
  match stream with
  | b0 :: b1 :: b2 :: b3 :: rest => le_combine [b0; b1; b2; b3] :: groups rest
  | _ => []
  end.

(** Bytes 1 and 2, and bytes 2 and 3, of every full 4-byte group. *)
Fixpoint bytes_1_2 (stream : list byte) : list byte :=
  match stream with
  | _ :: b1 :: b2 :: _ :: rest => b1 :: b2 :: bytes_1_2 rest
  | _ => []
  end.
Fixpoint bytes_2_3 (stream : list byte) : list byte :=
  match stream with
  | _ :: _ :: b2 :: b3 :: rest => b2 :: b3 :: bytes_2_3 rest
  | _ => []
  end.

(** Pairs of bytes read as little-endian signed 16-bit integers. *)
Fixpoint int16s_le (bs : list byte) : list Z :=
  match bs with
  | lo :: hi :: rest => Spec.sign_extend 16 (le_combine [lo; hi]) :: int16s_le rest
  | _ => []
  end.

(** The suffixes of the files written, in order. *)
Fixpoint written (tr : list event) : list string :=
  match tr with
  | [] => []
  | WriteFile s _ :: tr' => s :: written tr'
  | _ :: tr' => written tr'
  end.

(** An environment in which every operation on files succeeds. *)
Definition env_ok (input : string) (content : slice) : env :=
  {| files := fun p => if String.eqb p input then Content content else OpenError;
     write_ok := fun _ => true;
     close_ok := true |}.

(** An environment that reads [content] from every path, in which writing
    the report, writing the container and closing the input succeed or fail
    as the three booleans say (for the output prefix "./raw"). *)
Definition env_with (content : slice) (info_ok wav_ok closes : bool) : env :=
  {| files := fun _ => Content content;
     write_ok := fun p => if String.eqb p "./raw-info.txt" then info_ok else wav_ok;
     close_ok := closes |}.

(** ** Basic facts: monad, integers, slices *)

Lemma bind_ret_l {A B} (a : A) (f : A -> M B) : bind (ret a) f = f a.
Proof. unfold bind, ret. destruct (f a) as [tr r]. reflexivity. Qed.

Lemma unsigned_small w z : 0 <= z < 2 ^ w -> unsigned w z = z.
Proof. intros H. unfold unsigned. apply Z.mod_small, H. Qed.

Lemma signed_small w z : 0 < w -> - 2 ^ (w - 1) <= z < 2 ^ (w - 1) -> signed w z = z.
Proof.
  intros Hw H. unfold signed.
  replace (2 ^ w) with (2 * 2 ^ (w - 1)).
  - rewrite Z.mod_small; lia.
  - rewrite <- Z.pow_succ_r by lia. f_equal. lia.
Qed.

Lemma slice_range_ok s lo hi :
  0 <= lo <= hi -> hi <= cap s -> slice_range s lo hi = ret (sub s lo hi).
Proof.
  intros H1 H2. unfold slice_range.
  destruct (Z.leb_spec 0 lo); [|lia].
  destruct (Z.leb_spec lo hi); [|lia].
  destruct (Z.leb_spec hi (cap s)); [|lia]. reflexivity.
Qed.

Lemma slice_range_bad s lo hi :
  hi < lo \/ cap s < hi -> slice_range s lo hi = panic "slice bounds out of range".
Proof.
  intros H. unfold slice_range.
  destruct (Z.leb_spec 0 lo), (Z.leb_spec lo hi), (Z.leb_spec hi (cap s));
    simpl; try reflexivity; lia.
Qed.

Lemma len_cap s : len s <= cap s.
Proof. unfold len, cap. lia. Qed.

Lemma length_backing s : Z.of_nat (length (backing s)) = cap s.
Proof. unfold backing, cap. rewrite length_app. reflexivity. Qed.

Lemma elems_sub s lo hi :
  0 <= lo <= hi -> hi <= len s ->
  elems (sub s lo hi) = Spec.bytes_at (Z.to_nat lo) (Z.to_nat hi) (elems s).
Proof.
  intros H1 H2. unfold sub, Spec.bytes_at, backing, len in *. simpl.
  rewrite Z2Nat.inj_sub by lia.
  rewrite drop_app_le by lia. rewrite take_app_le; [reflexivity|].
  rewrite length_drop. lia.
Qed.

Lemma elems_sub_cap s hi :
  0 <= hi <= cap s -> elems (sub s 0 hi) = take (Z.to_nat hi) (backing s).
Proof. intros H. unfold sub. simpl. rewrite Z.sub_0_r. reflexivity. Qed.

Lemma index_ok (l : list byte) (i : nat) b :
  l !! i = Some b -> index l (Z.of_nat i) = ret b.
Proof.
  intros H. unfold index. pose proof (lookup_lt_Some _ _ _ H).
  destruct (Z.leb_spec 0 (Z.of_nat i)); [|lia].
  destruct (Z.ltb_spec (Z.of_nat i) (Z.of_nat (length l))); [|lia].
  simpl. rewrite Nat2Z.id, H. reflexivity.
Qed.

Lemma index_at (l : list byte) (i : Z) b :
  0 <= i -> l !! Z.to_nat i = Some b -> index l i = ret b.
Proof.
  intros Hi H. rewrite <- (Z2Nat.id i) by lia. apply index_ok, H.
Qed.

Ltac go_index :=
  repeat first [ rewrite bind_ret_l
               | erewrite index_at by (lia || reflexivity) ].

Lemma shiftl_byte_small b n w :
  0 <= n -> n + 8 <= w -> unsigned w (Z.shiftl (unsigned w (byte.unsigned b)) n) = Z.shiftl (byte.unsigned b) n.
Proof.
  intros Hn Hw. pose proof (byte.unsigned_range b) as Hb.
  assert (2 ^ 8 <= 2 ^ w) by (apply Z.pow_le_mono_r; lia).
  rewrite (unsigned_small w (byte.unsigned b)) by lia.
  apply unsigned_small. rewrite Z.shiftl_mul_pow2 by lia.
  split; [apply Z.mul_nonneg_nonneg; lia|].
  replace w with (8 + (w - 8 - n) + n) by lia. rewrite !Z.pow_add_r by lia.
  assert (0 < 2 ^ n) by (apply Z.pow_pos_nonneg; lia).
  assert (1 <= 2 ^ (w - 8 - n)) by (apply (Z.pow_le_mono_r 2 0); lia).
  nia.
Qed.

Lemma Uint32_ok b b0 b1 b2 b3 rest :
  elems b = b0 :: b1 :: b2 :: b3 :: rest ->
  LittleEndian.Uint32 b = ret (le_combine [b0; b1; b2; b3]).
Proof.
  intros H. unfold LittleEndian.Uint32. rewrite H.
  go_index.
  f_equal. unfold LittleEndian.u32, shl_u32, uint32.
  rewrite !shiftl_byte_small by lia.
  rewrite unsigned_small by (pose proof (byte.unsigned_range b0); lia).
  cbv [le_combine]. rewrite Z.shiftl_0_l, Z.lor_0_r.
  rewrite !Z.shiftl_lor, !Z.shiftl_shiftl by lia. simpl Z.add.
  rewrite !Z.lor_assoc. reflexivity.
Qed.

Lemma Uint64_ok b b0 b1 b2 b3 b4 b5 b6 b7 rest :
  elems b = b0 :: b1 :: b2 :: b3 :: b4 :: b5 :: b6 :: b7 :: rest ->
  LittleEndian.Uint64 b = ret (le_combine [b0; b1; b2; b3; b4; b5; b6; b7]).
Proof.
  intros H. unfold LittleEndian.Uint64. rewrite H. go_index.
  f_equal. unfold LittleEndian.u64, shl_u64, uint64.
  rewrite !shiftl_byte_small by lia.
  rewrite unsigned_small by (pose proof (byte.unsigned_range b0); lia).
  cbv [le_combine]. rewrite Z.shiftl_0_l, Z.lor_0_r.
  rewrite !Z.shiftl_lor, !Z.shiftl_shiftl by lia. simpl Z.add.
  rewrite !Z.lor_assoc. reflexivity.
Qed.

Lemma assign_at (l : list byte) (i : Z) b :
  0 <= i < Z.of_nat (length l) -> assign l i b = ret (<[Z.to_nat i := b]> l).
Proof.
  intros H. unfold assign.
  destruct (Z.leb_spec 0 i); [|lia].
  destruct (Z.ltb_spec i (Z.of_nat (length l))); [|lia]. reflexivity.
Qed.

Lemma PutUint16_ok v : LittleEndian.PutUint16 (make 2) v = ret (le_split 2 v).
Proof.
  unfold LittleEndian.PutUint16, make. simpl repeat. go_index.
  rewrite assign_at by (simpl; lia). go_index.
  rewrite assign_at by (simpl; lia). reflexivity.
Qed.

Lemma PutUint32_ok v : LittleEndian.PutUint32 (make 4) v = ret (le_split 4 v).
Proof.
  unfold LittleEndian.PutUint32, make. simpl repeat. go_index.
  do 4 (rewrite assign_at by (simpl; lia); go_index).
  cbv [le_split]. rewrite !Z.shiftr_shiftr by lia. reflexivity.
Qed.

(** ** CRC-32: the table-driven update against the bit-at-a-time definition *)

Ltac xor_bits :=
  apply Z.bits_inj; intros ?n; rewrite ?Z.lxor_spec;
  repeat match goal with
         | |- context [Z.testbit ?a ?n] => destruct (Z.testbit a n)
         end; reflexivity.

Lemma lxor_cancel_l a b : Z.lxor a b = a -> b = 0.
Proof.
  intros H. apply (f_equal (Z.lxor a)) in H.
  rewrite <- Z.lxor_assoc, Z.lxor_nilpotent, Z.lxor_0_l in H. exact H.
Qed.

Lemma lxor_cancel_r a b m : Z.lxor a m = Z.lxor b m -> a = b.
Proof.
  intros H. apply (f_equal (fun x => Z.lxor x m)) in H.
  rewrite !Z.lxor_assoc, Z.lxor_nilpotent, !Z.lxor_0_r in H. exact H.
Qed.

Lemma lxor_mod_pow2 n a b :
  0 <= n -> Z.lxor a b mod 2 ^ n = Z.lxor (a mod 2 ^ n) (b mod 2 ^ n).
Proof.
  intros Hn. apply Z.bits_inj'. intros i Hi. rewrite Z.lxor_spec.
  destruct (Z_lt_le_dec i n).
  - rewrite !Z.mod_pow2_bits_low by lia. apply Z.lxor_spec.
  - rewrite !Z.mod_pow2_bits_high by lia. reflexivity.
Qed.

Lemma lxor_bound n a b :
  0 <= n -> 0 <= a < 2 ^ n -> 0 <= b < 2 ^ n -> 0 <= Z.lxor a b < 2 ^ n.
Proof.
  intros Hn Ha Hb.
  rewrite <- (Z.mod_small a (2 ^ n)), <- (Z.mod_small b (2 ^ n)) by lia.
  rewrite <- lxor_mod_pow2 by lia. apply Z.mod_pos_bound. lia.
Qed.

Lemma round_crc_bit c : crc32.round crc32.IEEE c = Spec.crc_bit c.
Proof.
  unfold crc32.round, Spec.crc_bit, shr_u32, crc32.IEEE.
  rewrite Z.shiftr_div_pow2 by lia. change (2 ^ 1) with 2.
  change 1 with (Z.ones 1) at 1. rewrite Z.land_ones by lia. change (2 ^ 1) with 2.
  rewrite (Zmod_odd c). destruct (Z.odd c); reflexivity.
Qed.

Lemma iter_round_crc_bit n c :
  Nat.iter n (crc32.round crc32.IEEE) c = Nat.iter n Spec.crc_bit c.
Proof. induction n; simpl; [reflexivity|]. rewrite IHn. apply round_crc_bit. Qed.

Lemma crc_bit_lxor a b :
  Spec.crc_bit (Z.lxor a b) = Z.lxor (Spec.crc_bit a) (Spec.crc_bit b).
Proof.
  unfold Spec.crc_bit.
  change 2 with (2 ^ 1). rewrite <- !Z.shiftr_div_pow2 by lia.
  rewrite Z.shiftr_lxor.
  rewrite <- !Z.bit0_odd, Z.lxor_spec.
  destruct (Z.testbit a 0), (Z.testbit b 0); simpl; xor_bits.
Qed.

Lemma iter_crc_bit_lxor n a b :
  Nat.iter n Spec.crc_bit (Z.lxor a b) =
  Z.lxor (Nat.iter n Spec.crc_bit a) (Nat.iter n Spec.crc_bit b).
Proof. induction n; simpl; [reflexivity|]. rewrite IHn. apply crc_bit_lxor. Qed.

Lemma crc_bit_double y : Spec.crc_bit (2 * y) = y.
Proof.
  unfold Spec.crc_bit. rewrite Z.odd_mul. simpl.
  rewrite Z.mul_comm. apply Z.div_mul. lia.
Qed.

Lemma iter_crc_bit_shiftl n y :
  Nat.iter n Spec.crc_bit (Z.shiftl y (Z.of_nat n)) = y.
Proof.
  revert y. induction n; intros y.
  - simpl. apply Z.shiftl_0_r.
  - rewrite Nat.iter_succ_r. rewrite Nat2Z.inj_succ, <- Z.add_1_r.
    rewrite <- Z.shiftl_shiftl by lia.
    rewrite (Z.shiftl_mul_pow2 _ 1) by lia. change (2 ^ 1) with 2.
    rewrite (Z.mul_comm _ 2), crc_bit_double. apply IHn.
Qed.

Lemma crc_bit_range c : 0 <= c < 2 ^ 32 -> 0 <= Spec.crc_bit c < 2 ^ 32.
Proof.
  intros H. unfold Spec.crc_bit.
  assert (0 <= c / 2 < 2 ^ 32) by (split; [apply Z.div_pos|apply Z.div_lt_upper_bound]; lia).
  destruct (Z.odd c); [|assumption].
  apply lxor_bound; lia.
Qed.

Lemma crc_bit_nonzero c : 0 <= c < 2 ^ 32 -> Spec.crc_bit c = 0 -> c = 0.
Proof.
  intros H. unfold Spec.crc_bit.
  pose proof (Z.div2_odd c) as Hc. rewrite Z.div2_div in Hc.
  destruct (Z.odd c); simpl in Hc; intros E.
  - apply Z.lxor_eq in E. lia.
  - lia.
Qed.

Lemma iter_crc_bit_nonzero n c :
  0 <= c < 2 ^ 32 -> c <> 0 ->
  0 <= Nat.iter n Spec.crc_bit c < 2 ^ 32 /\ Nat.iter n Spec.crc_bit c <> 0.
Proof.
  intros H Hc. induction n; simpl; [auto|].
  destruct IHn as [IH1 IH2]. split; [apply crc_bit_range, IH1|].
  intros E. apply IH2, crc_bit_nonzero; assumption.
Qed.

Lemma IEEETable_eq : crc32.IEEETable = crc32.simpleMakeTable crc32.IEEE.
Proof. vm_compute. reflexivity. Qed.

Lemma entry_IEEETable i :
  0 <= i < 256 -> crc32.entry crc32.IEEETable i = Nat.iter 8 Spec.crc_bit i.
Proof.
  intros H. unfold crc32.entry. rewrite IEEETable_eq. unfold crc32.simpleMakeTable.
  set (f := fun i : nat => Nat.iter 8 (crc32.round crc32.IEEE) (uint32 (Z.of_nat i))).
  rewrite (nth_indep _ 0 (f 0%nat)) by (rewrite length_map, length_seq; lia).
  rewrite (map_nth f), seq_nth by lia. unfold f. simpl Nat.add.
  rewrite Z2Nat.id by lia. unfold uint32. rewrite unsigned_small by lia.
  apply iter_round_crc_bit.
Qed.

Lemma split_low_high s : s = Z.lxor (s mod 2 ^ 8) (Z.shiftl (Z.shiftr s 8) 8).
Proof.
  apply Z.bits_inj'. intros n Hn. rewrite Z.lxor_spec.
  destruct (Z_lt_le_dec n 8).
  - rewrite Z.mod_pow2_bits_low, Z.shiftl_spec_low by lia.
    destruct (Z.testbit s n); reflexivity.
  - rewrite Z.mod_pow2_bits_high, Z.shiftl_spec, Z.shiftr_spec by lia.
    simpl. f_equal. lia.
Qed.

Lemma table_step s v :
  Z.lxor (crc32.entry crc32.IEEETable (Z.lxor (uint8 s) (byte.unsigned v))) (shr_u32 s 8) =
  Spec.crc_byte s v.
Proof.
  unfold Spec.crc_byte, uint8, unsigned, shr_u32.
  pose proof (byte.unsigned_range v).
  rewrite entry_IEEETable
    by (apply (lxor_bound 8); [lia| apply Z.mod_pos_bound; lia | lia]).
  assert (E : Z.lxor s (byte.unsigned v) =
              Z.lxor (Z.lxor (s mod 2 ^ 8) (byte.unsigned v)) (Z.shiftl (Z.shiftr s 8) 8)).
  { rewrite (split_low_high s) at 1. xor_bits. }
  rewrite E. rewrite (iter_crc_bit_lxor 8 (Z.lxor _ _) (Z.shiftl _ 8)). f_equal.
  symmetry. apply (iter_crc_bit_shiftl 8).
Qed.

Lemma simpleUpdate_IEEE p : crc32.simpleUpdate 0 crc32.IEEETable p = Spec.crc32 p.
Proof.
  unfold crc32.simpleUpdate, Spec.crc32, not_u32. f_equal.
  change (Z.lxor 0 4294967295) with 4294967295.
  generalize 4294967295. induction p as [|v p IH]; intros c; simpl; [reflexivity|].
  rewrite table_step. apply IH.
Qed.

(** ** CRC-32 is affine, and a single flipped bit changes it *)

Lemma crc_byte_lxor c d v :
  Spec.crc_byte (Z.lxor c d) v = Z.lxor (Spec.crc_byte c v) (Nat.iter 8 Spec.crc_bit d).
Proof.
  unfold Spec.crc_byte. rewrite <- iter_crc_bit_lxor. f_equal. xor_bits.
Qed.

Lemma fold_crc_byte_lxor m c d :
  fold_left Spec.crc_byte m (Z.lxor c d) =
  Z.lxor (fold_left Spec.crc_byte m c) (Nat.iter (8 * length m) Spec.crc_bit d).
Proof.
  revert c d. induction m as [|v m IH]; intros c d.
  - simpl. reflexivity.
  - cbn [fold_left]. rewrite crc_byte_lxor, IH. f_equal.
    replace (8 * length (v :: m))%nat with (8 * length m + 8)%nat by (simpl; lia).
    rewrite Nat.iter_add. reflexivity.
Qed.

Lemma flip_byte_unsigned b k :
  (k < 8)%nat ->
  byte.unsigned (byte.of_Z (Z.lxor (byte.unsigned b) (2 ^ Z.of_nat k))) =
  Z.lxor (byte.unsigned b) (2 ^ Z.of_nat k).
Proof.
  intros Hk. rewrite byte.unsigned_of_Z. unfold byte.wrap.
  apply Z.mod_small. apply lxor_bound; [lia|apply byte.unsigned_range|].
  split; [apply Z.pow_nonneg; lia|apply Z.pow_lt_mono_r; lia].
Qed.

Lemma crc_byte_flip s b k :
  (k < 8)%nat ->
  Spec.crc_byte s (byte.of_Z (Z.lxor (byte.unsigned b) (2 ^ Z.of_nat k))) =
  Z.lxor (Spec.crc_byte s b) (Nat.iter 8 Spec.crc_bit (2 ^ Z.of_nat k)).
Proof.
  intros Hk. unfold Spec.crc_byte. rewrite flip_byte_unsigned by assumption.
  rewrite <- iter_crc_bit_lxor. f_equal. xor_bits.
Qed.

Lemma flip_bit_app pre b post k :
  Spec.flip_bit (length pre) k (pre ++ b :: post) =
  pre ++ byte.of_Z (Z.lxor (byte.unsigned b) (2 ^ Z.of_nat k)) :: post.
Proof.
  unfold Spec.flip_bit. rewrite alter_app_r_alt by lia.
  rewrite Nat.sub_diag. reflexivity.
Qed.

Lemma crc32_flip_bit m i k :
  (i < length m)%nat -> (k < 8)%nat ->
  Spec.crc32 (Spec.flip_bit i k m) <> Spec.crc32 m.
Proof.
  intros Hi Hk.
  destruct (lookup_lt_is_Some_2 m i Hi) as [b Hb].
  pose proof (take_drop_middle m i b Hb) as Hm.
  assert (Hlen : length (take i m) = i) by (rewrite length_take; lia).
  rewrite <- Hm at 1 2. rewrite <- Hlen at 1. rewrite flip_bit_app.
  unfold Spec.crc32. intros E. apply lxor_cancel_r in E.
  rewrite !fold_left_app in E. cbn [fold_left] in E.
  rewrite crc_byte_flip, fold_crc_byte_lxor in E by assumption.
  apply lxor_cancel_l in E. rewrite <- Nat.iter_add in E.
  assert (0 <= 2 ^ Z.of_nat k < 2 ^ 32 /\ 2 ^ Z.of_nat k <> 0) as [H1 H2].
  { assert (0 < 2 ^ Z.of_nat k) by (apply Z.pow_pos_nonneg; lia).
    assert (2 ^ Z.of_nat k < 2 ^ 32) by (apply Z.pow_lt_mono_r; lia). lia. }
  destruct (iter_crc_bit_nonzero (8 * length (drop (S i) m) + 8) _ H1 H2) as [_ Hnz].
  apply Hnz, E.
Qed.

(** The check value of CRC-32/ISO-HDLC. *)
Example crc32_check :
  Spec.crc32 (list_byte_of_string "123456789") = 0xCBF43926.
Proof. vm_compute. reflexivity. Qed.

(** ** The sample rule *)

Lemma sign_extend_signed w v :
  0 < w -> 0 <= v < 2 ^ w -> Spec.sign_extend w v = signed w v.
Proof.
  intros Hw Hv. unfold Spec.sign_extend, signed.
  assert (E : 2 ^ w = 2 * 2 ^ (w - 1)).
  { rewrite <- Z.pow_succ_r by lia. f_equal. lia. }
  destruct (Z.ltb_spec v (2 ^ (w - 1))).
  - rewrite Z.mod_small; lia.
  - rewrite <- (Z_mod_plus_full _ (-1)), Z.mod_small; lia.
Qed.

Lemma signed_mod w z : 0 < w -> signed w (z mod 2 ^ w) = signed w z.
Proof.
  intros Hw. unfold signed.
  assert (0 < 2 ^ w) by (apply Z.pow_pos_nonneg; lia).
  rewrite Zplus_mod_idemp_l. reflexivity.
Qed.

Lemma shifts_spec u :
  0 <= u < 2 ^ 32 ->
  shr_i32 (shl_i32 (int32 u) 8) 16 = Spec.shift_rule (Spec.sign_extend 32 u).
Proof.
  intros Hu. unfold shr_i32, shl_i32, Spec.shift_rule.
  rewrite (sign_extend_signed 32 u) by lia.
  rewrite Z.shiftr_div_pow2, Z.shiftl_mul_pow2 by lia.
  rewrite sign_extend_signed by (try apply Z.mod_pos_bound; lia).
  unfold int32. rewrite signed_mod by lia. reflexivity.
Qed.

Lemma shifts_bits u :
  0 <= u < 2 ^ 32 ->
  shr_i32 (shl_i32 (int32 u) 8) 16 = Spec.sign_extend 16 (Spec.bits_8_24 u).
Proof.
  intros Hu. unfold shr_i32, shl_i32, int32, Spec.bits_8_24, Spec.sign_extend, signed.
  rewrite Z.shiftr_div_pow2, Z.shiftl_mul_pow2 by lia.
  change (2 ^ 32) with 4294967296 in *. change (2 ^ (32 - 1)) with 2147483648.
  change (2 ^ 16) with 65536. change (2 ^ 8) with 256. change (2 ^ (16 - 1)) with 32768.
  destruct (Z.ltb_spec ((u / 256) mod 65536) 32768);
    Z.div_mod_to_equations; lia.
Qed.

Lemma sample_of_bits u : 0 <= u < 2 ^ 32 -> sample_of u = Spec.bits_8_24 u.
Proof.
  intros Hu. unfold sample_of. rewrite shifts_bits by assumption.
  unfold uint16, unsigned, Spec.sign_extend, Spec.bits_8_24.
  change (2 ^ 16) with 65536. change (2 ^ 8) with 256. change (2 ^ (16 - 1)) with 32768.
  destruct (Z.ltb_spec ((u / 256) mod 65536) 32768);
    Z.div_mod_to_equations; lia.
Qed.

Lemma le_split_eqm n a b :
  a mod 2 ^ (Z.of_nat n * 8) = b mod 2 ^ (Z.of_nat n * 8) -> le_split n a = le_split n b.
Proof.
  intros H. apply le_combine_inj.
  - rewrite !length_le_split. reflexivity.
  - rewrite !le_combine_split. exact H.
Qed.

Lemma le_split_unsigned n z : le_split n (unsigned (Z.of_nat n * 8) z) = le_split n z.
Proof.
  apply le_split_eqm. unfold unsigned. apply Z.mod_mod.
  apply Z.pow_nonzero; lia.
Qed.

Lemma le_split_truncate16 v : le_split 2 (Spec.truncate16 v) = le_split 2 v.
Proof.
  apply le_split_eqm. unfold Spec.truncate16, Spec.sign_extend.
  change (2 ^ (Z.of_nat 2 * 8)) with 65536. change (2 ^ 16) with 65536.
  change (2 ^ (16 - 1)) with 32768.
  destruct (Z.ltb_spec (v mod 65536) 32768); Z.div_mod_to_equations; lia.
Qed.

Lemma le_combine_4_range b0 b1 b2 b3 : 0 <= le_combine [b0; b1; b2; b3] < 2 ^ 32.
Proof. apply (le_combine_bound [b0; b1; b2; b3]). Qed.

Lemma bits_8_24_group b0 b1 b2 b3 :
  Spec.bits_8_24 (le_combine [b0; b1; b2; b3]) = le_combine [b1; b2].
Proof.
  unfold Spec.bits_8_24.
  change [b1; b2] with (take 2 [b1; b2; b3]). rewrite le_combine_firstn.
  f_equal. change [b0; b1; b2; b3] with ([b0] ++ [b1; b2; b3]).
  rewrite le_combine_app. rewrite <- Z.shiftr_div_pow2 by lia.
  rewrite Z.shiftr_lor. simpl length. change (Z.of_nat 1 * 8) with 8.
  rewrite Z.shiftr_shiftl_l by lia. rewrite Z.sub_diag, Z.shiftl_0_r.
  rewrite le_combine_1. rewrite Z.shiftr_div_pow2 by lia.
  rewrite Z.div_small by apply byte.unsigned_range. apply Z.lor_0_l.
Qed.

Lemma sign_extend_eqm w v :
  0 < w -> Spec.sign_extend w v mod 2 ^ w = v mod 2 ^ w.
Proof.
  intros Hw. unfold Spec.sign_extend.
  destruct (Z.ltb_spec v (2 ^ (w - 1))); [reflexivity|].
  rewrite <- (Z_mod_plus_full _ 1). f_equal. lia.
Qed.

(** One pass through the loop body appends bytes 1 and 2 of the group. *)
Lemma payload_group b0 b1 b2 b3 :
  le_split 2 (Spec.truncate16 (Spec.shift_rule (Spec.int32_le [b0; b1; b2; b3]))) = [b1; b2].
Proof.
  pose proof (le_combine_4_range b0 b1 b2 b3) as Hr.
  rewrite le_split_truncate16. unfold Spec.int32_le.
  rewrite <- shifts_spec, shifts_bits by assumption.
  rewrite (le_split_eqm 2 _ (Spec.bits_8_24 (le_combine [b0; b1; b2; b3])))
    by (apply (sign_extend_eqm 16); lia).
  rewrite bits_8_24_group. apply (split_le_combine [b1; b2]).
Qed.

Lemma sample_bytes b0 b1 b2 b3 :
  le_split 2 (sample_of (le_combine [b0; b1; b2; b3])) = [b1; b2].
Proof.
  rewrite sample_of_bits by apply le_combine_4_range.
  rewrite bits_8_24_group. apply (split_le_combine [b1; b2]).
Qed.

Lemma list_ind4 (P : list byte -> Prop) :
  (forall l, (length l < 4)%nat -> P l) ->
  (forall b0 b1 b2 b3 rest, P rest -> P (b0 :: b1 :: b2 :: b3 :: rest)) ->
  forall l, P l.
Proof.
  intros Hshort Hstep l.
  remember (length l) as n eqn:Hn. revert l Hn.
  induction n as [n IH] using lt_wf_ind. intros l Hn.
  destruct l as [|b0 [|b1 [|b2 [|b3 rest]]]]; try (apply Hshort; simpl; lia).
  apply Hstep. apply (IH (length rest)); [simpl in Hn; lia|reflexivity].
Qed.

Lemma length_payload l : length (Spec.payload l) = (2 * (length l / 4))%nat.
Proof.
  induction l as [l Hl|b0 b1 b2 b3 rest IH] using list_ind4.
  - rewrite Nat.div_small by assumption.
    destruct l as [|? [|? [|? [|? ?]]]]; try reflexivity. simpl in Hl. lia.
  - cbn [Spec.payload]. rewrite length_app, length_le_split, IH.
    change (length (b0 :: b1 :: b2 :: b3 :: rest)) with (4 + length rest)%nat.
    replace (4 + length rest)%nat with (length rest + 1 * 4)%nat by lia.
    rewrite Nat.div_add by lia. lia.
Qed.

Lemma payload_take l : Spec.payload (take (4 * (length l / 4)) l) = Spec.payload l.
Proof.
  induction l as [l Hl|b0 b1 b2 b3 rest IH] using list_ind4.
  - rewrite Nat.div_small by assumption. simpl.
    destruct l as [|? [|? [|? [|? ?]]]]; try reflexivity. simpl in Hl. lia.
  - change (length (b0 :: b1 :: b2 :: b3 :: rest)) with (4 + length rest)%nat.
    replace (4 + length rest)%nat with (length rest + 1 * 4)%nat by lia.
    rewrite Nat.div_add by lia.
    replace (4 * (length rest / 4 + 1))%nat with (S (S (S (S (4 * (length rest / 4)))))) by lia.
    cbn [take Spec.payload]. rewrite IH. reflexivity.
Qed.

Lemma slice_from_ok s lo :
  0 <= lo <= len s ->
  slice_from s lo = ret (sub s lo (len s)) /\
  elems (sub s lo (len s)) = drop (Z.to_nat lo) (elems s).
Proof.
  intros H. unfold slice_from. pose proof (len_cap s).
  rewrite slice_range_ok by lia. split; [reflexivity|].
  rewrite elems_sub by lia. unfold Spec.bytes_at, len.
  rewrite Nat2Z.id. apply take_ge. rewrite length_drop. lia.
Qed.

Lemma samples_loop_ok content n i body :
  0 <= i -> 32 + 4 * (i + Z.of_nat n) <= len content ->
  samples_loop content 32 n i body =
  ret (body ++ Spec.payload (take (4 * n) (drop (Z.to_nat (32 + 4 * i)) (elems content)))).
Proof.
  revert i body. induction n as [|n IH]; intros i body Hi Hlen.
  - simpl. rewrite app_nil_r. reflexivity.
  - cbn [samples_loop].
    destruct (slice_from_ok content (32 + i * 4)) as [E1 E2]; [lia|].
    rewrite E1, bind_ret_l.
    replace (32 + i * 4) with (32 + 4 * i) in * by lia.
    set (d := drop (Z.to_nat (32 + 4 * i)) (elems content)) in *.
    assert (Hd : (4 + 4 * n <= length d)%nat).
    { unfold d. rewrite length_drop. unfold len in Hlen. lia. }
    assert (Hd' : drop (Z.to_nat (32 + 4 * (i + 1))) (elems content) = drop 4 d).
    { unfold d. rewrite drop_drop. f_equal. lia. }
    destruct d as [|b0 [|b1 [|b2 [|b3 rest]]]]; try (simpl in Hd; lia).
    rewrite (Uint32_ok _ b0 b1 b2 b3 rest E2), bind_ret_l.
    rewrite PutUint16_ok, bind_ret_l.
    rewrite IH by lia. rewrite Hd'. f_equal.
    rewrite <- app_assoc. f_equal.
    replace (4 * S n)%nat with (S (S (S (S (4 * n))))) by lia.
    cbn [take Spec.payload drop]. f_equal.
    rewrite payload_group. apply (sample_bytes b0 b1 b2 b3).
Qed.

(** ** time.UnixMilli *)

Lemma UnixMilli_nanos m :
  - 2 ^ 63 <= m < 2 ^ 63 ->
  Spec.unix_nanos (time.UnixMilli m) = m * 10 ^ 6 /\
  0 <= wall (time.UnixMilli m) < 10 ^ 9.
Proof.
  intros Hm. unfold time.UnixMilli, quo_i64, rem_i64, mul_i64, int64.
  pose proof (Z.quot_rem' m 1000) as Hqr.
  assert (Hq : - 2 ^ 63 <= Z.quot m 1000 < 2 ^ 63) by (Z.quot_rem_to_equations; lia).
  assert (Hr : -1000 < Z.rem m 1000 < 1000) by (Z.quot_rem_to_equations; lia).
  rewrite (signed_small 64 (Z.quot m 1000)) by (simpl; lia).
  rewrite (signed_small 64 (Z.rem m 1000 * 1000000)) by (simpl; lia).
  set (q := Z.quot m 1000) in *. set (r := Z.rem m 1000) in *.
  unfold time.Unix.
  assert (Hlt : (1000000000 <=? r * 1000000) = false) by (apply Z.leb_gt; lia).
  rewrite Hlt, orb_false_r.
  destruct (Z.ltb_spec (r * 1000000) 0) as [Hneg|Hpos].
  - unfold quo_i64, add_i64, sub_i64, mul_i64, int64, int32.
    assert (Hn : Z.quot (r * 1000000) 1000000000 = 0) by (Z.quot_rem_to_equations; lia).
    rewrite Hn. rewrite (signed_small 64 0) by (simpl; lia).
    rewrite Z.add_0_r, Z.mul_0_l, Z.sub_0_r.
    rewrite (signed_small 64 q) by (simpl; lia).
    rewrite (signed_small 64 (r * 1000000)) by (simpl; lia).
    destruct (Z.ltb_spec (r * 1000000) 0); [|lia].
    assert (- 2 ^ 63 <= q - 1 < 2 ^ 63) by (Z.quot_rem_to_equations; lia).
    rewrite (signed_small 64 (q - 1)) by (simpl; lia).
    rewrite (signed_small 64 (r * 1000000 + 1000000000)) by (simpl; lia).
    rewrite (signed_small 32) by (simpl; lia).
    unfold time.unixTime, Spec.unix_nanos, add_i64, int64, uint64. simpl wall. simpl ext.
    rewrite unsigned_small by lia.
    assert (Hu : time.unixToInternal = 62135596800) by reflexivity.
    rewrite signed_small by (simpl; lia). lia.
  - unfold int32. rewrite (signed_small 32) by (simpl; lia).
    unfold time.unixTime, Spec.unix_nanos, add_i64, int64, uint64. simpl wall. simpl ext.
    rewrite unsigned_small by lia.
    assert (Hu : time.unixToInternal = 62135596800) by reflexivity.
    assert (- 2 ^ 63 <= q + 62135596800 < 2 ^ 63) by (Z.quot_rem_to_equations; lia).
    rewrite signed_small by (simpl; lia). lia.
Qed.

(** ** The header part of [main] *)

Lemma length_bytes_at lo hi (l : list byte) :
  (lo <= hi <= length l)%nat -> length (Spec.bytes_at lo hi l) = (hi - lo)%nat.
Proof. intros H. unfold Spec.bytes_at. rewrite length_take, length_drop. lia. Qed.

Lemma Uint32_sub s lo hi :
  0 <= lo -> hi = lo + 4 -> hi <= len s ->
  LittleEndian.Uint32 (sub s lo hi) =
  ret (Spec.le (Z.to_nat lo) (Z.to_nat hi) (elems s)).
Proof.
  intros H1 -> H2. pose proof (elems_sub s lo (lo + 4) ltac:(lia) H2) as E.
  pose proof (length_bytes_at (Z.to_nat lo) (Z.to_nat (lo + 4)) (elems s)) as L.
  unfold len in H2. unfold Spec.le.
  destruct (Spec.bytes_at _ _ _) as [|b0 [|b1 [|b2 [|b3 [|? ?]]]]];
    try (simpl in L; lia).
  apply (Uint32_ok _ _ _ _ _ _ E).
Qed.

Lemma Uint64_sub s lo hi :
  0 <= lo -> hi = lo + 8 -> hi <= len s ->
  LittleEndian.Uint64 (sub s lo hi) =
  ret (Spec.le (Z.to_nat lo) (Z.to_nat hi) (elems s)).
Proof.
  intros H1 -> H2. pose proof (elems_sub s lo (lo + 8) ltac:(lia) H2) as E.
  pose proof (length_bytes_at (Z.to_nat lo) (Z.to_nat (lo + 8)) (elems s)) as L.
  unfold len in H2. unfold Spec.le.
  destruct (Spec.bytes_at _ _ _)
    as [|b0 [|b1 [|b2 [|b3 [|b4 [|b5 [|b6 [|b7 [|? ?]]]]]]]]];
    try (simpl in L; lia).
  apply (Uint64_ok _ _ _ _ _ _ _ _ _ _ E).
Qed.

Lemma main_fields_ok header :
  len header = 32 ->
  main_fields header =
  ret (mkHeader (Spec.le 0 4 (elems header)) (Spec.le 4 12 (elems header))
                (mkTime 0 0) (Spec.le 20 24 (elems header))
                (Spec.le 24 28 (elems header)) (Spec.le 28 32 (elems header)) false,
       Spec.le 12 20 (elems header)).
Proof.
  intros H. pose proof (len_cap header). unfold main_fields.
  rewrite !slice_range_ok by lia.
  repeat first [ rewrite bind_ret_l
               | rewrite (Uint32_sub header) by lia
               | rewrite (Uint64_sub header) by lia ].
  reflexivity.
Qed.

Lemma main_header_from header :
  len header = 32 ->
  (hts <- main_fields header ;;
   let h := fst hts in
   let timestamp := snd hts in
   b <- slice_to header 28 ;;
   let crc := crc32.ChecksumIEEE b in
   let h := mkHeader (SampleRate h) (CenterFreq h) (Timestamp h) (SampleSize h)
                     (Reserved h) (CRC h) (crc =? CRC h) in
   (if negb (CRCValid h) then emit (Info "CRC mismatch" []) else ret tt) ;;
   ret (mkHeader (SampleRate h) (CenterFreq h) (time.UnixMilli (int64 timestamp))
                 (SampleSize h) (Reserved h) (CRC h) (CRCValid h)))%go =
  (if CRCValid (decoded (elems header)) then [] else [Info "CRC mismatch" []],
   Val (decoded (elems header))).
Proof.
  intros Hl. pose proof (len_cap header).
  rewrite main_fields_ok, bind_ret_l by assumption. cbn [fst snd].
  unfold slice_to. rewrite slice_range_ok, bind_ret_l by lia.
  unfold crc32.ChecksumIEEE. rewrite elems_sub by lia.
  rewrite simpleUpdate_IEEE.
  change (Z.to_nat 0) with 0%nat. change (Z.to_nat 28) with 28%nat.
  cbn [SampleRate CenterFreq Timestamp SampleSize Reserved CRC CRCValid].
  unfold decoded. cbn [CRCValid].
  destruct (Spec.crc32 _ =? _); reflexivity.
Qed.

Lemma main_header_ok content :
  32 <= cap content ->
  main_header content =
  (if CRCValid (decoded (header32 content)) then [] else [Info "CRC mismatch" []],
   Val (decoded (header32 content))).
Proof.
  intros H. unfold main_header, slice_to.
  rewrite slice_range_ok, bind_ret_l by lia.
  assert (He : elems (sub content 0 32) = header32 content) by (apply elems_sub_cap; lia).
  rewrite <- He. apply main_header_from.
  unfold len. rewrite He. unfold header32. rewrite length_take.
  pose proof (length_backing content). lia.
Qed.

Lemma main_header_short content :
  cap content < 32 -> main_header content = panic "slice bounds out of range".
Proof.
  intros H. unfold main_header, slice_to. rewrite slice_range_bad by lia. reflexivity.
Qed.

Lemma header32_elems content :
  32 <= len content -> header32 content = take 32 (elems content).
Proof.
  intros H. unfold header32, backing, len in *. apply take_app_le. lia.
Qed.

Lemma bytes_at_take lo hi n (l : list byte) :
  (hi <= n)%nat -> Spec.bytes_at lo hi (take n l) = Spec.bytes_at lo hi l.
Proof.
  intros H. unfold Spec.bytes_at.
  rewrite skipn_firstn_comm, take_take. f_equal. lia.
Qed.

Lemma decoded_take e : decoded (take 32 e) = decoded e.
Proof. unfold decoded, Spec.le. rewrite !bytes_at_take by lia. reflexivity. Qed.

(** ** The container header *)

Lemma waveHeader_ok r0 r1 r2 r3 c0 c1 c2 c3 :
  waveHeader [r0; r1; r2; r3] [c0; c1; c2; c3] =
  ret (Spec.tag "RIFF" ++ [Byte.x00; Byte.x00; Byte.x00; Byte.x00] ++
       Spec.tag "WAVE" ++ Spec.tag "fmt " ++
       le_split 4 16 ++ le_split 2 1 ++ le_split 2 2 ++
       [r0; r1; r2; r3] ++ [c0; c1; c2; c3] ++
       le_split 2 4 ++ le_split 2 16 ++
       Spec.tag "data" ++ [Byte.x00; Byte.x00; Byte.x00; Byte.x00]).
Proof. unfold waveHeader. go_index. reflexivity. Qed.

Lemma le_split_4_cons v : exists b0 b1 b2 b3, le_split 4 v = [b0; b1; b2; b3].
Proof. cbv [le_split]. eauto. Qed.

Lemma main_waveHeader_ok sr :
  main_waveHeader sr = ret (Spec.preamble 0 sr (sampleRateCalc sr) 0).
Proof.
  unfold main_waveHeader. rewrite !PutUint32_ok, !bind_ret_l.
  unfold uint32. rewrite !(le_split_unsigned 4).
  destruct (le_split_4_cons sr) as (r0 & r1 & r2 & r3 & Er).
  destruct (le_split_4_cons (sampleRateCalc sr)) as (c0 & c1 & c2 & c3 & Ec).
  unfold Spec.preamble. rewrite Er, Ec. apply waveHeader_ok.
Qed.

Lemma length_preamble a b c d : length (Spec.preamble a b c d) = 44%nat.
Proof. unfold Spec.preamble. rewrite !length_app, !length_le_split. reflexivity. Qed.

Ltac explode H :=
  match type of H with
  | length ?l = _ =>
      repeat (destruct l as [|? l];
              [discriminate H | simpl in H; apply Nat.succ_inj in H]);
      destruct l; [clear H | discriminate H]
  end.

Lemma main_sizes_shape (t old1 mid old2 payload : list byte) :
  length t = 4%nat -> length old1 = 4%nat -> length mid = 32%nat -> length old2 = 4%nat ->
  main_sizes (t ++ old1 ++ mid ++ old2 ++ payload) =
  ret (t ++ le_split 4 (44 + Z.of_nat (length payload) - 8) ++ mid ++
       le_split 4 (Z.of_nat (length payload)) ++ payload).
Proof.
  intros Ht H1 Hm H2. explode Ht. explode H1. explode Hm. explode H2.
  unfold main_sizes. cbn [app].
  rewrite PutUint32_ok, bind_ret_l. unfold uint32. rewrite (le_split_unsigned 4).
  match goal with |- context [le_split 4 (Z.of_nat (length ?l) - 8)] =>
    replace (Z.of_nat (length l) - 8) with (44 + Z.of_nat (length payload) - 8)
      by (cbn [length]; lia);
    destruct (le_split_4_cons (44 + Z.of_nat (length payload) - 8)) as (f0 & f1 & f2 & f3 & Ef)
  end.
  rewrite Ef. go_index.
  do 4 (rewrite assign_at by (rewrite ?length_insert; cbn [length]; lia); go_index).
  rewrite PutUint32_ok, bind_ret_l. rewrite (le_split_unsigned 4).
  match goal with |- context [le_split 4 (Z.of_nat (length ?l) - 44)] =>
    replace (Z.of_nat (length l) - 44) with (Z.of_nat (length payload))
      by (rewrite ?length_insert; cbn [length]; lia);
    destruct (le_split_4_cons (Z.of_nat (length payload))) as (d0 & d1 & d2 & d3 & Ed)
  end.
  rewrite Ed. go_index.
  do 3 (rewrite assign_at by (rewrite ?length_insert; cbn [length]; lia); go_index).
  rewrite assign_at by (rewrite ?length_insert; cbn [length]; lia).
  reflexivity.
Qed.

Lemma main_sizes_ok a sr br d payload :
  main_sizes (Spec.preamble a sr br d ++ payload) =
  ret (Spec.preamble (44 + Z.of_nat (length payload) - 8) sr br
                     (Z.of_nat (length payload)) ++ payload).
Proof.
  unfold Spec.preamble.
  set (mid := Spec.tag "WAVE" ++ Spec.tag "fmt " ++ le_split 4 16 ++ le_split 2 1 ++
              le_split 2 2 ++ le_split 4 sr ++ le_split 4 br ++ le_split 2 4 ++
              le_split 2 16 ++ Spec.tag "data").
  assert (Hmid : length mid = 32%nat).
  { unfold mid. rewrite !length_app, !length_le_split. reflexivity. }
  pose proof (main_sizes_shape (Spec.tag "RIFF") (le_split 4 a) mid (le_split 4 d) payload
                eq_refl (length_le_split _ _) Hmid (length_le_split _ _)) as E.
  unfold mid in *. repeat rewrite <- app_assoc in *. exact E.
Qed.

(** ** The whole run *)

Lemma list_from_ok (l : list byte) lo :
  0 <= lo <= Z.of_nat (length l) -> list_from l lo = ret (drop (Z.to_nat lo) l).
Proof.
  intros H. unfold list_from.
  destruct (Z.leb_spec 0 lo); [|lia].
  destruct (Z.leb_spec lo (Z.of_nat (length l))); [|lia]. reflexivity.
Qed.

Lemma bind_emit_after {B} e (f : unit -> M B) : bind (emit e) f = after [e] (f tt).
Proof. unfold bind, emit, after. destruct (f tt). reflexivity. Qed.

Lemma bind_val_after {A B} tr (a : A) (f : A -> M B) : bind (tr, Val a) f = after tr (f a).
Proof. unfold bind, after. destruct (f a). reflexivity. Qed.

Lemma main_from_header content h :
  32 <= len content ->
  (emit (Println (Header_String h)) ;;
   emit (WriteFile "-info.txt" (Text (Header_String h))) ;;
   body <- main_waveHeader (SampleRate h) ;;
   let startIndex := 32 in
   tail <- slice_from content startIndex ;;
   body <- samples_loop content startIndex (Z.to_nat (Z.quot (len tail) 4)) 0 body ;;
   bodySamples <- list_from body 44 ;;
   let bodySamplesLen := Z.quot (Z.of_nat (length bodySamples)) 2 in
   emit (Info "body samples length: " [Z.rem bodySamplesLen 8]) ;;
   body <- main_sizes body ;;
   emit (WriteFile "-iq.wav" (Bytes body)) ;;
   emit (Info "done" []) ;;
   os_Exit 0)%go =
  ([Println (Header_String h);
    WriteFile "-info.txt" (Text (Header_String h));
    Info "body samples length: "
         [Z.rem (Z.quot (Z.of_nat (length (Spec.payload (drop 32 (elems content))))) 2) 8];
    WriteFile "-iq.wav" (Bytes (container (SampleRate h) (drop 32 (elems content))));
    Info "done" []],
   @Stop unit (Exit 0)).
Proof.
  intros H. cbv zeta.
  rewrite !bind_emit_after, main_waveHeader_ok, bind_ret_l.
  destruct (slice_from_ok content 32) as [E1 E2]; [lia|].
  rewrite E1, bind_ret_l.
  assert (Hn : Z.to_nat (Z.quot (len (sub content 32 (len content))) 4) =
               (length (drop 32 (elems content)) / 4)%nat).
  { unfold len at 1. rewrite E2. change (Z.to_nat 32) with 32%nat.
    rewrite Z.quot_div_nonneg by lia.
    change 4 with (Z.of_nat 4). rewrite <- Nat2Z.inj_div. apply Nat2Z.id. }
  rewrite Hn, samples_loop_ok.
  2: lia.
  2: { pose proof (Nat.Div0.mul_div_le (length (drop 32 (elems content))) 4) as Hd.
       rewrite length_drop in *. unfold len in *. lia. }
  rewrite bind_ret_l. change (Z.to_nat (32 + 4 * 0)) with 32%nat.
  rewrite payload_take.
  set (data := Spec.payload (drop 32 (elems content))).
  rewrite list_from_ok by (rewrite length_app, length_preamble; lia).
  rewrite bind_ret_l. change (Z.to_nat 44) with 44%nat.
  match goal with |- context [drop 44 (Spec.preamble ?a ?b ?c ?d ++ ?p)] =>
    rewrite (drop_app_length' (Spec.preamble a b c d) p 44 (length_preamble a b c d))
  end.
  rewrite bind_emit_after, main_sizes_ok, bind_ret_l, !bind_emit_after.
  reflexivity.
Qed.

Lemma main_ok content :
  32 <= len content ->
  main content =
  (crc_log (decoded (elems content)) ++
   [Println (Header_String (decoded (elems content)));
    WriteFile "-info.txt" (Text (Header_String (decoded (elems content))));
    Info "body samples length: "
         [Z.rem (Z.quot (Z.of_nat (length (Spec.payload (drop 32 (elems content))))) 2) 8];
    WriteFile "-iq.wav"
      (Bytes (container (SampleRate (decoded (elems content))) (drop 32 (elems content))));
    Info "done" []],
   Stop (Exit 0)).
Proof.
  intros H. pose proof (len_cap content). unfold main.
  rewrite main_header_ok by lia. rewrite bind_val_after.
  rewrite main_from_header by assumption.
  rewrite header32_elems, decoded_take by assumption. reflexivity.
Qed.

Lemma main_short content :
  len content < 32 -> 32 <= cap content ->
  main content =
  (crc_log (decoded (header32 content)) ++
   [Println (Header_String (decoded (header32 content)));
    WriteFile "-info.txt" (Text (Header_String (decoded (header32 content))))],
   Stop (Panic "slice bounds out of range")).
Proof.
  intros H1 H2. unfold main.
  rewrite main_header_ok by lia. rewrite bind_val_after.
  rewrite !bind_emit_after, main_waveHeader_ok, bind_ret_l.
  unfold slice_from. rewrite slice_range_bad by lia.
  reflexivity.
Qed.

Lemma main_no_header content :
  cap content < 32 -> main content = ([], Stop (Panic "slice bounds out of range")).
Proof.
  intros H. unfold main. rewrite main_header_short by assumption. reflexivity.
Qed.

(** ** What a run writes *)

Lemma writes_app suffix tr1 tr2 :
  writes suffix (tr1 ++ tr2) = writes suffix tr1 ++ writes suffix tr2.
Proof.
  induction tr1 as [|e tr1 IH]; [reflexivity|].
  destruct e; simpl; rewrite ?IH; try reflexivity.
  destruct (String.eqb suffix0 suffix); rewrite ?IH; reflexivity.
Qed.

Lemma writes_crc_log suffix h : writes suffix (crc_log h) = [].
Proof. unfold crc_log. destruct (CRCValid h); reflexivity. Qed.

Lemma printed_app tr1 tr2 : printed (tr1 ++ tr2) = printed tr1 ++ printed tr2.
Proof.
  induction tr1 as [|e tr1 IH]; [reflexivity|].
  destruct e; simpl; rewrite ?IH; reflexivity.
Qed.

Lemma printed_crc_log h : printed (crc_log h) = [].
Proof. unfold crc_log. destruct (CRCValid h); reflexivity. Qed.

Lemma main_ending content : 32 <= len content -> ending (main content) = Stop (Exit 0).
Proof. intros H. rewrite main_ok by assumption. reflexivity. Qed.

Lemma main_writes_wav content :
  32 <= len content ->
  writes "-iq.wav" (trace (main content)) =
  [Bytes (container (SampleRate (decoded (elems content))) (drop 32 (elems content)))].
Proof.
  intros H. rewrite main_ok by assumption. unfold trace. cbn [fst].
  rewrite writes_app, writes_crc_log. reflexivity.
Qed.

Lemma main_writes_info content :
  32 <= len content ->
  writes "-info.txt" (trace (main content)) =
  [Text (Header_String (decoded (elems content)))].
Proof.
  intros H. rewrite main_ok by assumption. unfold trace. cbn [fst].
  rewrite writes_app, writes_crc_log. reflexivity.
Qed.

Lemma main_printed content :
  32 <= len content ->
  printed (trace (main content)) = [Header_String (decoded (elems content))].
Proof.
  intros H. rewrite main_ok by assumption. unfold trace. cbn [fst].
  rewrite printed_app, printed_crc_log. reflexivity.
Qed.

Lemma payload_length_Z stream :
  Z.of_nat (length (Spec.payload stream)) = Z.of_nat (length stream) / 4 * 2.
Proof.
  rewrite length_payload, Nat2Z.inj_mul, Nat2Z.inj_div. simpl Z.of_nat. lia.
Qed.

Lemma length_container sr stream :
  Z.of_nat (length (container sr stream)) = 44 + Z.of_nat (length (Spec.payload stream)).
Proof.
  unfold container. cbv zeta. rewrite length_app, length_preamble. lia.
Qed.

Lemma preamble_fields a sr br d data :
  Spec.bytes_at 4 8 (Spec.preamble a sr br d ++ data) = le_split 4 a /\
  Spec.bytes_at 24 28 (Spec.preamble a sr br d ++ data) = le_split 4 sr /\
  Spec.bytes_at 28 32 (Spec.preamble a sr br d ++ data) = le_split 4 br /\
  Spec.bytes_at 40 44 (Spec.preamble a sr br d ++ data) = le_split 4 d.
Proof.
  unfold Spec.preamble.
  destruct (le_split_4_cons a) as (a0 & a1 & a2 & a3 & ->).
  destruct (le_split_4_cons sr) as (r0 & r1 & r2 & r3 & ->).
  destruct (le_split_4_cons br) as (c0 & c1 & c2 & c3 & ->).
  destruct (le_split_4_cons d) as (d0 & d1 & d2 & d3 & ->).
  repeat split; reflexivity.
Qed.

Lemma le_le_split4 v : le_combine (le_split 4 v) = v mod 2 ^ 32.
Proof. apply (le_combine_split 4). Qed.

Lemma container_fields sr stream :
  let w := container sr stream in
  Spec.le 4 8 w = (Z.of_nat (length w) - 8) mod 2 ^ 32 /\
  Spec.le 24 28 w = sr mod 2 ^ 32 /\
  Spec.le 28 32 w = sampleRateCalc sr mod 2 ^ 32 /\
  Spec.le 40 44 w = (Z.of_nat (length w) - 44) mod 2 ^ 32.
Proof.
  intros w. pose proof (length_container sr stream) as L. fold w in L.
  unfold w, container, Spec.le. cbv zeta.
  destruct (preamble_fields (44 + Z.of_nat (length (Spec.payload stream)) - 8) sr
              (sampleRateCalc sr) (Z.of_nat (length (Spec.payload stream)))
              (Spec.payload stream)) as (E1 & E2 & E3 & E4).
  rewrite E1, E2, E3, E4, !le_le_split4.
  unfold w, container in L. cbv zeta in L. rewrite L.
  repeat split; f_equal; lia.
Qed.

(** ** Fields and their re-encoding *)

Lemma fields_ok content :
  32 <= len content ->
  (header <- slice_to content 32 ;; main_fields header)%go =
  ret (mkHeader (Spec.le 0 4 (elems content)) (Spec.le 4 12 (elems content))
                (mkTime 0 0) (Spec.le 20 24 (elems content))
                (Spec.le 24 28 (elems content)) (Spec.le 28 32 (elems content)) false,
       Spec.le 12 20 (elems content)).
Proof.
  intros H. pose proof (len_cap content). unfold slice_to.
  rewrite slice_range_ok, bind_ret_l by lia.
  assert (He : elems (sub content 0 32) = take 32 (elems content)).
  { rewrite elems_sub_cap by lia. apply header32_elems, H. }
  rewrite main_fields_ok.
  - rewrite He. unfold Spec.le. rewrite !bytes_at_take by lia. reflexivity.
  - unfold len in *. rewrite He, length_take. lia.
Qed.

Lemma bytes_at_app lo mid hi (e : list byte) :
  (lo <= mid <= hi)%nat ->
  Spec.bytes_at lo mid e ++ Spec.bytes_at mid hi e = Spec.bytes_at lo hi e.
Proof.
  intros H. unfold Spec.bytes_at.
  replace (drop mid e) with (drop (mid - lo) (drop lo e))
    by (rewrite drop_drop; f_equal; lia).
  rewrite take_take_drop. f_equal. lia.
Qed.

Lemma le_split_le n lo hi (e : list byte) :
  (lo <= hi <= length e)%nat -> (hi - lo = n)%nat ->
  le_split n (Spec.le lo hi e) = Spec.bytes_at lo hi e.
Proof.
  intros H Hn. unfold Spec.le. apply split_le_combine'.
  rewrite length_bytes_at; assumption.
Qed.

Lemma encode_decode (e : list byte) :
  (32 <= length e)%nat -> Spec.encode (Spec.decode e) = take 32 e.
Proof.
  intros H. unfold Spec.encode, Spec.decode.
  cbn [Spec.sample_rate Spec.center_freq Spec.raw_timestamp Spec.sample_size
       Spec.reserved Spec.stored_crc].
  rewrite !le_split_le by lia.
  rewrite !bytes_at_app by lia.
  unfold Spec.bytes_at. rewrite drop_0. reflexivity.
Qed.

Lemma le_range lo hi (e : list byte) :
  (lo <= hi <= length e)%nat -> 0 <= Spec.le lo hi e < 2 ^ (8 * Z.of_nat (hi - lo)).
Proof.
  intros H. unfold Spec.le.
  pose proof (le_combine_bound (Spec.bytes_at lo hi e)) as B.
  rewrite length_bytes_at in B by assumption. exact B.
Qed.

Lemma sampleRateCalc_small sr : 0 <= sr < 2 ^ 27 -> sampleRateCalc sr = sr * 4.
Proof.
  intros H. unfold sampleRateCalc, div_u32, mul_u32, uint32, unsigned.
  change (2 ^ 27) with 134217728 in H. change (2 ^ 32) with 4294967296.
  Z.div_mod_to_equations. lia.
Qed.

Lemma sampleRateCalc_range sr : 0 <= sampleRateCalc sr < 2 ^ 32.
Proof.
  unfold sampleRateCalc, div_u32, mul_u32, uint32, unsigned.
  change (2 ^ 32) with 4294967296.
  Z.div_mod_to_equations. lia.
Qed.

(** ** The claims *)

(** The scenario of the specification: crc_valid is true, the payload has 4
    bytes (bytes 1 and 2 of each group), the container 48 bytes, the size
    fields hold 40 and 4 and the byte rate is 32000. *)
Example scenario_8000 :
  printed (trace (main capture8000)) =
    [mkReport 8000 0 (mkTime 0 time.unixToInternal) 0 true] /\
  writes "-iq.wav" (trace (main capture8000)) =
    [Bytes (Spec.preamble 40 8000 32000 4 ++ [Byte.x00; Byte.x01; Byte.x00; Byte.xfe])] /\
  ending (main capture8000) = Stop (Exit 0).
Proof. vm_compute. repeat split. Qed.

(** C1.  For every input buffer that reaches the sample stage (at least 32
    bytes), the run ends normally and the audio container it writes is a
    44-byte header followed by the payload of the specification: the
    consecutive non-overlapping 4-byte groups of the buffer from offset 32,
    a trailing partial group dropped, each group read as a 32-bit
    little-endian signed integer, shifted left by 8 and arithmetically
    right by 16, truncated to 16 bits and appended as 2 little-endian
    bytes.  The shifted value is bits [8:24) of the group sign-extended
    from bit 23, and the payload has floor((length - 32)/4) * 2 bytes. *)
Theorem payload_reencoding (content : slice) :
  32 <= len content ->
  exists pre,
    length pre = 44%nat /\
    ending (main content) = Stop (Exit 0) /\
    writes "-iq.wav" (trace (main content)) =
      [Bytes (pre ++ Spec.payload (drop 32 (elems content)))] /\
    Z.of_nat (length (Spec.payload (drop 32 (elems content)))) =
      (len content - 32) / 4 * 2 /\
    (forall b0 b1 b2 b3,
        Spec.shift_rule (Spec.int32_le [b0; b1; b2; b3]) =
        Spec.sign_extend 16 (Spec.bits_8_24 (le_combine [b0; b1; b2; b3]))).
Proof.
  intros H.
  eexists. split; [|split; [|split; [|split]]].
  2: apply main_ending, H.
  2: { rewrite main_writes_wav by assumption. unfold container. cbv zeta. reflexivity. }
  - apply length_preamble.
  - rewrite payload_length_Z, length_drop. unfold len in *.
    rewrite Nat2Z.inj_sub by lia. reflexivity.
  - intros b0 b1 b2 b3. unfold Spec.int32_le.
    rewrite <- shifts_spec, shifts_bits by apply le_combine_4_range. reflexivity.
Qed.

Lemma payload_reencoding_witness :
  32 <= len capture8000_noisy /\
  exists pre,
    length pre = 44%nat /\
    ending (main capture8000_noisy) = Stop (Exit 0) /\
    writes "-iq.wav" (trace (main capture8000_noisy)) =
      [Bytes (pre ++ Spec.payload (drop 32 (elems capture8000_noisy)))] /\
    Z.of_nat (length (Spec.payload (drop 32 (elems capture8000_noisy)))) =
      (len capture8000_noisy - 32) / 4 * 2 /\
    (forall b0 b1 b2 b3,
        Spec.shift_rule (Spec.int32_le [b0; b1; b2; b3]) =
        Spec.sign_extend 16 (Spec.bits_8_24 (le_combine [b0; b1; b2; b3]))).
Proof.
  split; [vm_compute; discriminate|].
  apply (payload_reencoding capture8000_noisy). vm_compute. discriminate.
Defined.




Lemma short_input_report_written :
  writes "-info.txt" (trace (main input31)) <> [].
Proof. vm_compute. discriminate. Qed.

(** C3 (as amended).  For every input of at least 32 bytes, bytes [4:8) of
    the container written hold (total length - 8) mod 2^32 and bytes [40:44)
    hold (total length - 44) mod 2^32, as little-endian unsigned 32-bit
    values; they are the exact differences whenever these fit in 32 bits.
    For an empty sample region the container is the 44-byte header, with
    36 and 0 in the two fields. *)
Theorem size_fields_wrap (content : slice) :
  32 <= len content ->
  exists w,
    writes "-iq.wav" (trace (main content)) = [Bytes w] /\
    Spec.le 4 8 w = (Z.of_nat (length w) - 8) mod 2 ^ 32 /\
    Spec.le 40 44 w = (Z.of_nat (length w) - 44) mod 2 ^ 32 /\
    (Z.of_nat (length w) - 8 < 2 ^ 32 -> Spec.le 4 8 w = Z.of_nat (length w) - 8) /\
    (Z.of_nat (length w) - 44 < 2 ^ 32 -> Spec.le 40 44 w = Z.of_nat (length w) - 44) /\
    (len content = 32 ->
     length w = 44%nat /\ Spec.le 4 8 w = 36 /\ Spec.le 40 44 w = 0).
Proof.
  intros H. eexists. split; [apply main_writes_wav, H|].
  set (sr := SampleRate (decoded (elems content))).
  set (stream := drop 32 (elems content)).
  destruct (container_fields sr stream) as (E1 & _ & _ & E4).
  pose proof (length_container sr stream) as L.
  pose proof (payload_length_Z stream) as P.
  assert (Hs : Z.of_nat (length stream) = len content - 32).
  { unfold stream, len in *. rewrite length_drop. lia. }
  rewrite E1, E4. repeat split.
  - intros Hlt. apply Z.mod_small. lia.
  - intros Hlt. apply Z.mod_small. lia.
  - rewrite P, Hs, H0 in L. change ((32 - 32) / 4 * 2) with 0 in L. lia.
  - rewrite P, Hs, H0 in L. rewrite L. reflexivity.
  - rewrite P, Hs, H0 in L. rewrite L. reflexivity.
Qed.

Lemma size_fields_wrap_witness :
  32 <= len capture8000 /\
  exists w,
    writes "-iq.wav" (trace (main capture8000)) = [Bytes w] /\
    Spec.le 4 8 w = (Z.of_nat (length w) - 8) mod 2 ^ 32 /\
    Spec.le 40 44 w = (Z.of_nat (length w) - 44) mod 2 ^ 32 /\
    (Z.of_nat (length w) - 8 < 2 ^ 32 -> Spec.le 4 8 w = Z.of_nat (length w) - 8) /\
    (Z.of_nat (length w) - 44 < 2 ^ 32 -> Spec.le 40 44 w = Z.of_nat (length w) - 44) /\
    (len capture8000 = 32 ->
     length w = 44%nat /\ Spec.le 4 8 w = 36 /\ Spec.le 40 44 w = 0).
Proof.
  split; [vm_compute; discriminate|].
  apply (size_fields_wrap capture8000). vm_compute. discriminate.
Defined.

Lemma len_capture_8GiB : len capture_8GiB = 8589934624.
Proof.
  unfold len, capture_8GiB. cbn [elems].
  rewrite repeat_length. apply Z2Nat.id. discriminate.
Qed.

Lemma size_fields_overflow content :
  len content = 8589934624 -> ~ size_fields_claim content.
Proof.
  intros Hlen (w & Hw & E & _).
  rewrite main_writes_wav in Hw by (rewrite Hlen; discriminate).
  injection Hw as Hw. subst w.
  set (sr := Spec.le 0 4 (elems content)) in *.
  set (stream := drop 32 (elems content)) in *.
  destruct (container_fields sr stream) as (E1 & _).
  pose proof (length_container sr stream) as L.
  pose proof (payload_length_Z stream) as P.
  assert (Hs : Z.of_nat (length stream) = 8589934592).
  { unfold stream. rewrite length_drop. unfold len in Hlen. lia. }
  rewrite P, Hs in L. rewrite E1, L in E.
  revert E. clear. intros E. vm_compute in E. discriminate E.
Qed.

(** C3 as stated fails on a capture of 2^31 sample groups: the container has
    2^32 + 44 bytes, and the two fields hold 36 and 0. *)
Lemma size_fields_8GiB : ~ size_fields_claim capture_8GiB.
Proof. exact (size_fields_overflow capture_8GiB len_capture_8GiB). Qed.




(** C5.  For every input buffer of at least 32 bytes the decoded header's
    crc_valid is true exactly when the CRC-32 (IEEE) of bytes [0:28) equals
    the little-endian value stored at bytes [28:32).  If it is true, then
    after flipping any single bit in bytes [0:28) it is false.  A mismatch
    is logged as "CRC mismatch" and is not fatal: the run still prints and
    writes the report of the decoded header, writes the container and exits
    with code 0. *)
Theorem crc_valid_iff (content : slice) :
  32 <= len content ->
  exists h,
    main_header content = (crc_log h, Val h) /\
    (CRCValid h = true <->
     Spec.crc32 (Spec.bytes_at 0 28 (elems content)) = Spec.le 28 32 (elems content)) /\
    (forall i k, (i < 28)%nat -> (k < 8)%nat -> CRCValid h = true ->
       exists h',
         ending (main_header (mkSlice (Spec.flip_bit i k (elems content)) (spare content)))
           = Val h' /\
         CRCValid h' = false) /\
    (CRCValid h = false -> In "CRC mismatch"%string (logged (trace (main content)))) /\
    ending (main content) = Stop (Exit 0) /\
    printed (trace (main content)) = [Header_String h] /\
    writes "-info.txt" (trace (main content)) = [Text (Header_String h)] /\
    exists w, writes "-iq.wav" (trace (main content)) = [Bytes w].
Proof.
  intros H. pose proof (len_cap content) as Hc.
  exists (decoded (elems content)).
  split.
  { rewrite main_header_ok by lia.
    rewrite header32_elems, decoded_take by assumption. reflexivity. }
  split; [apply Z.eqb_eq|].
  split.
  { intros i k Hi Hk Hv.
    set (content' := mkSlice (Spec.flip_bit i k (elems content)) (spare content)).
    assert (Hl : len content' = len content).
    { unfold len, content', Spec.flip_bit. cbn [elems]. rewrite length_alter. reflexivity. }
    pose proof (len_cap content') as Hc'.
    exists (decoded (elems content')). split.
    - rewrite main_header_ok by lia.
      rewrite header32_elems, decoded_take by lia. reflexivity.
    - apply Z.eqb_eq in Hv. apply Z.eqb_neq.
      cbn [CRC decoded] in *. unfold content'. cbn [elems].
      assert (E28 : Spec.bytes_at 0 28 (Spec.flip_bit i k (elems content)) =
                    Spec.flip_bit i k (Spec.bytes_at 0 28 (elems content))).
      { unfold Spec.bytes_at, Spec.flip_bit. rewrite !drop_0.
        apply take_alter_lt. lia. }
      assert (E32 : Spec.le 28 32 (Spec.flip_bit i k (elems content)) =
                    Spec.le 28 32 (elems content)).
      { unfold Spec.le, Spec.bytes_at, Spec.flip_bit. rewrite drop_alter_lt by lia.
        reflexivity. }
      rewrite E28, E32, <- Hv. apply crc32_flip_bit; [|assumption].
      rewrite length_bytes_at; unfold len in H; lia. }
  split.
  { intros Hv. rewrite main_ok by assumption. unfold trace, crc_log. cbn [fst].
    rewrite Hv. simpl. left. reflexivity. }
  split; [apply main_ending, H|].
  split; [apply main_printed, H|].
  split; [apply main_writes_info, H|].
  eexists. apply main_writes_wav, H.
Qed.

Lemma crc_valid_iff_witness :
  32 <= len capture8000 /\
  exists h,
    main_header capture8000 = (crc_log h, Val h) /\
    (CRCValid h = true <->
     Spec.crc32 (Spec.bytes_at 0 28 (elems capture8000)) = Spec.le 28 32 (elems capture8000)) /\
    (forall i k, (i < 28)%nat -> (k < 8)%nat -> CRCValid h = true ->
       exists h',
         ending (main_header (mkSlice (Spec.flip_bit i k (elems capture8000))
                                      (spare capture8000)))
           = Val h' /\
         CRCValid h' = false) /\
    (CRCValid h = false -> In "CRC mismatch"%string (logged (trace (main capture8000)))) /\
    ending (main capture8000) = Stop (Exit 0) /\
    printed (trace (main capture8000)) = [Header_String h] /\
    writes "-info.txt" (trace (main capture8000)) = [Text (Header_String h)] /\
    exists w, writes "-iq.wav" (trace (main capture8000)) = [Bytes w].
Proof.
  split; [vm_compute; discriminate|].
  apply (crc_valid_iff capture8000). vm_compute. discriminate.
Defined.

(** C6.  For every input buffer of at least 32 bytes, lines 62-72 decode
    sample_rate from bytes [0:4) as u32, center_freq from [4:12) as u64,
    raw_timestamp from [12:20) as u64, sample_size from [20:24) as u32,
    reserved from [24:28) as u32 and stored_crc from [28:32) as u32, all
    little-endian; the header that [main] goes on with carries the same
    values. *)
Theorem header_fields_layout (content : slice) :
  32 <= len content ->
  exists h timestamp,
    (header <- slice_to content 32 ;; main_fields header)%go = ret (h, timestamp) /\
    SampleRate h = Spec.le 0 4 (elems content) /\ 0 <= SampleRate h < 2 ^ 32 /\
    CenterFreq h = Spec.le 4 12 (elems content) /\ 0 <= CenterFreq h < 2 ^ 64 /\
    timestamp = Spec.le 12 20 (elems content) /\ 0 <= timestamp < 2 ^ 64 /\
    SampleSize h = Spec.le 20 24 (elems content) /\ 0 <= SampleSize h < 2 ^ 32 /\
    Reserved h = Spec.le 24 28 (elems content) /\ 0 <= Reserved h < 2 ^ 32 /\
    CRC h = Spec.le 28 32 (elems content) /\ 0 <= CRC h < 2 ^ 32 /\
    exists h',
      ending (main_header content) = Val h' /\
      SampleRate h' = SampleRate h /\ CenterFreq h' = CenterFreq h /\
      Timestamp h' = time.UnixMilli (int64 timestamp) /\
      SampleSize h' = SampleSize h /\ Reserved h' = Reserved h /\ CRC h' = CRC h.
Proof.
  intros H. pose proof (len_cap content) as Hc.
  assert (Hn : (32 <= length (elems content))%nat) by (unfold len in H; lia).
  eexists _, _. split; [apply fields_ok, H|].
  cbn [SampleRate CenterFreq SampleSize Reserved CRC].
  pose proof (le_range 0 4 (elems content) ltac:(lia)).
  pose proof (le_range 4 12 (elems content) ltac:(lia)).
  pose proof (le_range 12 20 (elems content) ltac:(lia)).
  pose proof (le_range 20 24 (elems content) ltac:(lia)).
  pose proof (le_range 24 28 (elems content) ltac:(lia)).
  pose proof (le_range 28 32 (elems content) ltac:(lia)).
  repeat (split; [first [reflexivity | assumption]|]).
  exists (decoded (elems content)). split.
  - rewrite main_header_ok by lia.
    rewrite header32_elems, decoded_take by assumption. reflexivity.
  - repeat split.
Qed.

Lemma header_fields_layout_witness :
  32 <= len capture8000_noisy /\
  exists h timestamp,
    (header <- slice_to capture8000_noisy 32 ;; main_fields header)%go = ret (h, timestamp) /\
    SampleRate h = Spec.le 0 4 (elems capture8000_noisy) /\ 0 <= SampleRate h < 2 ^ 32 /\
    CenterFreq h = Spec.le 4 12 (elems capture8000_noisy) /\ 0 <= CenterFreq h < 2 ^ 64 /\
    timestamp = Spec.le 12 20 (elems capture8000_noisy) /\ 0 <= timestamp < 2 ^ 64 /\
    SampleSize h = Spec.le 20 24 (elems capture8000_noisy) /\ 0 <= SampleSize h < 2 ^ 32 /\
    Reserved h = Spec.le 24 28 (elems capture8000_noisy) /\ 0 <= Reserved h < 2 ^ 32 /\
    CRC h = Spec.le 28 32 (elems capture8000_noisy) /\ 0 <= CRC h < 2 ^ 32 /\
    exists h',
      ending (main_header capture8000_noisy) = Val h' /\
      SampleRate h' = SampleRate h /\ CenterFreq h' = CenterFreq h /\
      Timestamp h' = time.UnixMilli (int64 timestamp) /\
      SampleSize h' = SampleSize h /\ Reserved h' = Reserved h /\ CRC h' = CRC h.
Proof.
  split; [vm_compute; discriminate|].
  apply (header_fields_layout capture8000_noisy). vm_compute. discriminate.
Defined.


(** C8.  For every buffer of at least 32 bytes, the six fields that lines
    62-72 decode from the header (sample_rate, center_freq, raw_timestamp,
    sample_size, reserved, stored_crc), written back in their little-endian
    layout, are the first 32 bytes of the buffer; for a 32-byte header
    buffer that is the whole buffer. *)
Theorem header_roundtrip (content : slice) :
  32 <= len content ->
  exists h timestamp,
    (header <- slice_to content 32 ;; main_fields header)%go = ret (h, timestamp) /\
    Spec.encode (Spec.mkCaptureHeader (SampleRate h) (CenterFreq h) timestamp
                                      (SampleSize h) (Reserved h) (CRC h))
      = take 32 (elems content) /\
    (len content = 32 ->
     Spec.encode (Spec.mkCaptureHeader (SampleRate h) (CenterFreq h) timestamp
                                       (SampleSize h) (Reserved h) (CRC h))
       = elems content).
Proof.
  intros H.
  assert (Hn : (32 <= length (elems content))%nat) by (unfold len in H; lia).
  eexists _, _. split; [apply fields_ok, H|].
  cbn [SampleRate CenterFreq SampleSize Reserved CRC].
  pose proof (encode_decode (elems content) Hn) as E. unfold Spec.decode in E.
  split; [exact E|].
  intros H32. rewrite E. apply take_ge. unfold len in H32. lia.
Qed.

Lemma header_roundtrip_witness :
  32 <= len capture_timestamp_max /\
  exists h timestamp,
    (header <- slice_to capture_timestamp_max 32 ;; main_fields header)%go =
      ret (h, timestamp) /\
    Spec.encode (Spec.mkCaptureHeader (SampleRate h) (CenterFreq h) timestamp
                                      (SampleSize h) (Reserved h) (CRC h))
      = take 32 (elems capture_timestamp_max) /\
    (len capture_timestamp_max = 32 ->
     Spec.encode (Spec.mkCaptureHeader (SampleRate h) (CenterFreq h) timestamp
                                       (SampleSize h) (Reserved h) (CRC h))
       = elems capture_timestamp_max).
Proof.
  split; [vm_compute; discriminate|].
  apply (header_roundtrip capture_timestamp_max). vm_compute. discriminate.
Defined.

(** C9 (as amended).  For every buffer of at least 32 bytes, with
    raw_timestamp the unsigned 64-bit value of header bytes [12:20), the
    derived timestamp is the instant int64(raw_timestamp) milliseconds from
    the Unix epoch: raw_timestamp milliseconds after it when
    raw_timestamp < 2^63, and 2^64 - raw_timestamp milliseconds before it
    otherwise. *)
Theorem timestamp_signed_millis (content : slice) :
  32 <= len content ->
  exists h,
    ending (main_header content) = Val h /\
    Spec.unix_nanos (Timestamp h) = int64 (Spec.le 12 20 (elems content)) * 10 ^ 6 /\
    0 <= wall (Timestamp h) < 10 ^ 9 /\
    (Spec.le 12 20 (elems content) < 2 ^ 63 ->
     Spec.unix_nanos (Timestamp h) = Spec.le 12 20 (elems content) * 10 ^ 6) /\
    (2 ^ 63 <= Spec.le 12 20 (elems content) ->
     Spec.unix_nanos (Timestamp h) = - (2 ^ 64 - Spec.le 12 20 (elems content)) * 10 ^ 6).
Proof.
  intros H. pose proof (len_cap content) as Hc.
  assert (Hn : (32 <= length (elems content))%nat) by (unfold len in H; lia).
  exists (decoded (elems content)). split.
  { rewrite main_header_ok by lia.
    rewrite header32_elems, decoded_take by assumption. reflexivity. }
  cbn [Timestamp decoded].
  pose proof (le_range 12 20 (elems content) ltac:(lia)) as Hr.
  change (2 ^ (8 * Z.of_nat (20 - 12))) with (2 ^ 64) in Hr.
  set (raw := Spec.le 12 20 (elems content)) in *.
  assert (Hi : - 2 ^ 63 <= int64 raw < 2 ^ 63).
  { unfold int64, signed. change (2 ^ (64 - 1)) with (2 ^ 63).
    pose proof (Z.mod_pos_bound (raw + 2 ^ 63) (2 ^ 64) eq_refl). lia. }
  destruct (UnixMilli_nanos (int64 raw) Hi) as [E W].
  split; [exact E|]. split; [exact W|]. rewrite E. split.
  - intros Hlt. unfold int64. rewrite (signed_small 64 raw) by (simpl; lia). reflexivity.
  - intros Hge. f_equal. unfold int64, signed. change (2 ^ (64 - 1)) with (2 ^ 63).
    rewrite <- (Z_mod_plus_full _ (-1)). rewrite Z.mod_small; lia.
Qed.

Lemma timestamp_signed_millis_witness :
  32 <= len capture_timestamp_max /\
  exists h,
    ending (main_header capture_timestamp_max) = Val h /\
    Spec.unix_nanos (Timestamp h) =
      int64 (Spec.le 12 20 (elems capture_timestamp_max)) * 10 ^ 6 /\
    0 <= wall (Timestamp h) < 10 ^ 9 /\
    (Spec.le 12 20 (elems capture_timestamp_max) < 2 ^ 63 ->
     Spec.unix_nanos (Timestamp h) = Spec.le 12 20 (elems capture_timestamp_max) * 10 ^ 6) /\
    (2 ^ 63 <= Spec.le 12 20 (elems capture_timestamp_max) ->
     Spec.unix_nanos (Timestamp h) =
       - (2 ^ 64 - Spec.le 12 20 (elems capture_timestamp_max)) * 10 ^ 6).
Proof.
  split; [vm_compute; discriminate|].
  apply (timestamp_signed_millis capture_timestamp_max). vm_compute. discriminate.
Defined.

(** C9 as stated fails for the raw timestamp 2^64 - 1: the derived time is
    one millisecond before the epoch. *)
Lemma timestamp_wraps : ~ timestamp_claim capture_timestamp_max.
Proof.
  intros (h & Hh & E). vm_compute in Hh. injection Hh as <-.
  vm_compute in E. discriminate E.
Qed.

(** C10.  Two input buffers of at least 32 bytes that agree on bytes [0:4)
    and on all bytes from offset 32 on produce the same audio container:
    the other header fields and the outcome of the CRC check do not reach
    it. *)
Theorem container_noninterference (c1 c2 : slice) :
  32 <= len c1 -> 32 <= len c2 ->
  take 4 (elems c1) = take 4 (elems c2) ->
  drop 32 (elems c1) = drop 32 (elems c2) ->
  exists w,
    writes "-iq.wav" (trace (main c1)) = [Bytes w] /\
    writes "-iq.wav" (trace (main c2)) = [Bytes w].
Proof.
  intros H1 H2 Hsr Hst. eexists. split; [apply main_writes_wav, H1|].
  rewrite main_writes_wav by assumption.
  cbn [SampleRate decoded]. unfold Spec.le, Spec.bytes_at.
  rewrite !drop_0. change (4 - 0)%nat with 4%nat. rewrite Hsr, Hst. reflexivity.
Qed.

Lemma container_noninterference_witness :
  32 <= len capture8000 /\ 32 <= len capture8000_other /\
  take 4 (elems capture8000) = take 4 (elems capture8000_other) /\
  drop 32 (elems capture8000) = drop 32 (elems capture8000_other) /\
  exists w,
    writes "-iq.wav" (trace (main capture8000)) = [Bytes w] /\
    writes "-iq.wav" (trace (main capture8000_other)) = [Bytes w].
Proof.
  split; [vm_compute; discriminate|]. split; [vm_compute; discriminate|].
  split; [reflexivity|]. split; [reflexivity|].
  apply (container_noninterference capture8000 capture8000_other);
    [vm_compute; discriminate|vm_compute; discriminate|reflexivity|reflexivity].
Defined.

(** ** The conversion functions *)

Lemma set_index_at {A} (l : list A) (i : Z) (x : A) :
  0 <= i < Z.of_nat (length l) -> set_index l i x = ret (<[Z.to_nat i := x]> l).
Proof.
  intros H. unfold set_index.
  destruct (Z.leb_spec 0 i); [|lia].
  destruct (Z.ltb_spec i (Z.of_nat (length l))); [|lia]. reflexivity.
Qed.

Lemma assign_app (pre : list byte) old rest i b :
  i = Z.of_nat (length pre) ->
  assign (pre ++ old :: rest) i b = ret (pre ++ b :: rest).
Proof.
  intros ->. rewrite assign_at by (rewrite length_app; simpl; lia).
  rewrite Nat2Z.id. rewrite insert_app_r_alt by lia.
  rewrite Nat.sub_diag. reflexivity.
Qed.

Lemma convertToByte_loop_ok samples i pre :
  Z.of_nat (length pre) = i * 2 ->
  convertToByte_loop samples i (pre ++ make (length samples * 2)) =
  ret (pre ++ flat_map (le_split 2) samples).
Proof.
  revert i pre. induction samples as [|sample rest IH]; intros i pre Hpre.
  - reflexivity.
  - cbn [convertToByte_loop length flat_map]. unfold make.
    replace (S (length rest) * 2)%nat with (S (S (length rest * 2))) by lia.
    cbn [repeat].
    rewrite assign_app, bind_ret_l by lia.
    change (pre ++ byte.of_Z sample :: Byte.x00 :: repeat Byte.x00 (length rest * 2))
      with (pre ++ [byte.of_Z sample] ++ Byte.x00 :: repeat Byte.x00 (length rest * 2)).
    rewrite app_assoc.
    rewrite assign_app, bind_ret_l by (rewrite length_app; simpl; lia).
    replace ((pre ++ [byte.of_Z sample]) ++
             byte.of_Z (shr_i16 sample 8) :: repeat Byte.x00 (length rest * 2))
      with ((pre ++ le_split 2 sample) ++ make (length rest * 2))
      by (rewrite <- !app_assoc; reflexivity).
    rewrite IH by (rewrite length_app, length_le_split; lia).
    rewrite <- app_assoc. reflexivity.
Qed.

Lemma convertToByte_ok samples :
  convertToByte samples = ret (flat_map (le_split 2) samples).
Proof. apply (convertToByte_loop_ok samples 0 []). reflexivity. Qed.

Lemma convertTo16Bit_loop_ok samples i (pre : list Z) :
  Z.of_nat (length pre) = i ->
  convertTo16Bit_loop samples i (pre ++ repeat 0 (length samples)) =
  ret (pre ++ map (fun sample => int16 (shr_u32 sample 16)) samples).
Proof.
  revert i pre. induction samples as [|sample rest IH]; intros i pre Hpre.
  - reflexivity.
  - cbn [convertTo16Bit_loop length map repeat].
    rewrite set_index_at by (rewrite length_app; simpl; lia).
    rewrite bind_ret_l. subst i. rewrite Nat2Z.id.
    rewrite insert_app_r_alt, Nat.sub_diag by lia. cbn [insert list_insert].
    change (pre ++ int16 (shr_u32 sample 16) :: repeat 0 (length rest))
      with (pre ++ [int16 (shr_u32 sample 16)] ++ repeat 0 (length rest)).
    rewrite app_assoc. rewrite IH by (rewrite length_app; simpl; lia).
    rewrite <- app_assoc. reflexivity.
Qed.

Lemma convertTo16Bit_ok samples :
  convertTo16Bit samples =
  ret (flat_map (fun sample => le_split 2 (int16 (shr_u32 sample 16))) samples).
Proof.
  unfold convertTo16Bit. cbv zeta.
  pose proof (convertTo16Bit_loop_ok samples 0 [] eq_refl) as E.
  cbn [app] in E. rewrite E, bind_ret_l, convertToByte_ok. apply (f_equal ret). clear E.
  induction samples as [|sample rest IH].
  - reflexivity.
  - cbn [map flat_map]. rewrite IH. reflexivity.
Qed.

Lemma int16_eqm x : int16 x mod 2 ^ 16 = x mod 2 ^ 16.
Proof.
  unfold int16, signed. change (2 ^ (16 - 1)) with 32768. change (2 ^ 16) with 65536.
  Z.div_mod_to_equations. lia.
Qed.

Lemma le_split_int16 x : le_split 2 (int16 x) = le_split 2 x.
Proof. apply le_split_eqm, int16_eqm. Qed.

Lemma group_high_half b0 b1 b2 b3 :
  shr_u32 (le_combine [b0; b1; b2; b3]) 16 = le_combine [b2; b3].
Proof.
  unfold shr_u32. change [b0; b1; b2; b3] with ([b0; b1] ++ [b2; b3]).
  rewrite le_combine_app. rewrite Z.shiftr_lor. simpl length.
  change (Z.of_nat 2 * 8) with 16.
  rewrite Z.shiftr_shiftl_l by lia. rewrite Z.sub_diag, Z.shiftl_0_r.
  pose proof (le_combine_bound [b0; b1]) as B. simpl length in B.
  rewrite (Z.shiftr_div_pow2 (le_combine [b0; b1])) by lia.
  rewrite Z.div_small by exact B. apply Z.lor_0_l.
Qed.

Lemma shifted_group b0 b1 b2 b3 :
  le_split 2 (int16 (shr_u32 (shl_u32 (le_combine [b0; b1; b2; b3]) 8) 16)) = [b1; b2].
Proof.
  pose proof (le_combine_4_range b0 b1 b2 b3) as Hr.
  rewrite le_split_int16, <- (sample_bytes b0 b1 b2 b3).
  rewrite sample_of_bits by assumption.
  apply le_split_eqm. unfold shr_u32, shl_u32, uint32, unsigned, Spec.bits_8_24.
  rewrite Z.shiftr_div_pow2, Z.shiftl_mul_pow2 by lia.
  set (u := le_combine [b0; b1; b2; b3]) in *.
  change (2 ^ (Z.of_nat 2 * 8)) with 65536. change (2 ^ 32) with 4294967296 in *.
  change (2 ^ 16) with 65536. change (2 ^ 8) with 256.
  Z.div_mod_to_equations. lia.
Qed.

(** X1.  [convertToByte] never panics: it returns, for every list of
    samples, two bytes per sample, the low byte first, so that the result
    has twice the length of the input and the conversion of a
    concatenation is the concatenation of the conversions. *)
Theorem convertToByte_layout (samples more : list Z) :
  exists bs bs',
    convertToByte samples = ret bs /\
    convertToByte more = ret bs' /\
    convertToByte (samples ++ more) = ret (bs ++ bs') /\
    length bs = (2 * length samples)%nat /\
    (forall i s, samples !! i = Some s ->
       bs !! (2 * i)%nat = Some (byte.of_Z s) /\
       bs !! (2 * i + 1)%nat = Some (byte.of_Z (Z.shiftr s 8))).
Proof.
  exists (flat_map (le_split 2) samples), (flat_map (le_split 2) more).
  rewrite !convertToByte_ok, flat_map_app.
  repeat split; try reflexivity.
  - induction samples as [|s r IH]; [reflexivity|].
    cbn [flat_map length]. rewrite length_app, length_le_split, IH. lia.
  - revert i H. induction samples as [|s0 r IH]; intros i H; [discriminate|].
    destruct i as [|i]; [injection H as ->; reflexivity|].
    replace (2 * S i)%nat with (S (S (2 * i))) by lia. apply (IH i H).
  - revert i H. induction samples as [|s0 r IH]; intros i H; [discriminate|].
    destruct i as [|i]; [injection H as ->; reflexivity|].
    replace (2 * S i + 1)%nat with (S (S (2 * i + 1))) by lia. apply (IH i H).
Qed.

(** X2.  The bytes that [convertToByte] returns, read back in pairs as
    little-endian signed 16-bit integers, are the samples it was given
    (samples being values of type int16). *)
Theorem convertToByte_roundtrip (samples : list Z) :
  Forall (fun s => - 2 ^ 15 <= s < 2 ^ 15) samples ->
  exists bs, convertToByte samples = ret bs /\ int16s_le bs = samples.
Proof.
  intros H. eexists. split; [apply convertToByte_ok|].
  induction H as [|s r Hs Hr IH]; [reflexivity|].
  cbn [flat_map].
  change (le_split 2 s) with [byte.of_Z s; byte.of_Z (Z.shiftr s 8)].
  cbn [app int16s_le]. rewrite IH. f_equal.
  change [byte.of_Z s; byte.of_Z (Z.shiftr s 8)] with (le_split 2 s).
  rewrite le_combine_split.
  rewrite sign_extend_signed by (try apply Z.mod_pos_bound; lia).
  change (Z.of_nat 2 * 8) with 16. rewrite signed_mod by lia.
  apply signed_small; simpl; lia.
Qed.

Lemma convertToByte_roundtrip_witness :
  Forall (fun s => - 2 ^ 15 <= s < 2 ^ 15) [1; -2; 258; -32768; 32767] /\
  exists bs, convertToByte [1; -2; 258; -32768; 32767] = ret bs /\
             int16s_le bs = [1; -2; 258; -32768; 32767].
Proof.
  assert (H : Forall (fun s => - 2 ^ 15 <= s < 2 ^ 15) [1; -2; 258; -32768; 32767])
    by (repeat constructor; simpl; lia).
  split; [exact H|]. apply (convertToByte_roundtrip _ H).
Defined.

(** X3.  [convertTo16Bit] never panics and returns two bytes per sample;
    applied to the little-endian values of the 4-byte groups of a stream it
    returns bytes 2 and 3 of every group (the high half of each 32-bit
    word). *)
Theorem convertTo16Bit_high_half (samples : list Z) (stream : list byte) :
  exists bs,
    convertTo16Bit samples = ret bs /\
    length bs = (2 * length samples)%nat /\
    convertTo16Bit (groups stream) = ret (bytes_2_3 stream).
Proof.
  eexists. split; [apply convertTo16Bit_ok|]. split.
  - induction samples as [|s r IH]; [reflexivity|].
    cbn [flat_map length]. rewrite length_app, length_le_split, IH. lia.
  - rewrite convertTo16Bit_ok. apply (f_equal ret).
    induction stream as [l Hl|b0 b1 b2 b3 rest IH] using list_ind4.
    + destruct l as [|? [|? [|? [|? ?]]]]; try reflexivity. simpl in Hl. lia.
    + cbn [groups flat_map bytes_2_3]. rewrite IH, le_split_int16, group_high_half.
      change (le_split 2 (le_combine [b2; b3])) with
        (le_split (length [b2; b3]) (le_combine [b2; b3])).
      rewrite split_le_combine. reflexivity.
Qed.

(** X4.  The payload that [main] appends to the container is what
    [convertTo16Bit] returns for the group values shifted left by 8 bits
    (at 32 bits): the loop of lines 128-137 is [convertTo16Bit] after that
    shift. *)
Theorem payload_is_convertTo16Bit (content : slice) :
  32 <= len content ->
  exists pre p,
    length pre = 44%nat /\
    writes "-iq.wav" (trace (main content)) = [Bytes (pre ++ p)] /\
    convertTo16Bit (map (fun u => shl_u32 u 8) (groups (drop 32 (elems content)))) = ret p.
Proof.
  intros H. eexists _, _. split; [|split].
  2: { rewrite main_writes_wav by assumption. unfold container. cbv zeta. reflexivity. }
  - apply length_preamble.
  - rewrite convertTo16Bit_ok. apply (f_equal ret).
    induction (drop 32 (elems content)) as [l Hl|b0 b1 b2 b3 rest IH] using list_ind4.
    + destruct l as [|? [|? [|? [|? ?]]]]; try reflexivity. simpl in Hl. lia.
    + cbn [groups map flat_map Spec.payload]. rewrite IH, shifted_group, payload_group.
      reflexivity.
Qed.

Lemma payload_is_convertTo16Bit_witness :
  32 <= len capture8000_noisy /\
  exists pre p,
    length pre = 44%nat /\
    writes "-iq.wav" (trace (main capture8000_noisy)) = [Bytes (pre ++ p)] /\
    convertTo16Bit (map (fun u => shl_u32 u 8) (groups (drop 32 (elems capture8000_noisy))))
      = ret p.
Proof.
  split; [vm_compute; discriminate|].
  apply (payload_is_convertTo16Bit capture8000_noisy). vm_compute. discriminate.
Defined.

(** ** The run with failing file operations *)

Lemma after_app {A} tr1 tr2 (m : M A) : after (tr1 ++ tr2) m = after tr1 (after tr2 m).
Proof. unfold after. cbn [fst snd]. rewrite app_assoc. reflexivity. Qed.

Lemma main_io_ok e output content :
  32 <= len content -> main_io e output content = main_io_run e output content.
Proof.
  intros H. pose proof (len_cap content) as Hc. unfold main_io, main_io_run. cbv zeta.
  rewrite main_header_ok by lia. rewrite bind_val_after.
  rewrite header32_elems, decoded_take by assumption.
  set (h := decoded (elems content)).
  rewrite bind_emit_after, after_app. do 2 f_equal. unfold ioutil_WriteFile.
  destruct (write_ok e (output ++ "-info.txt")) eqn:Hw1; [|reflexivity].
  rewrite bind_emit_after, main_waveHeader_ok, bind_ret_l.
  destruct (slice_from_ok content 32) as [E1 E2]; [lia|].
  rewrite E1, bind_ret_l.
  assert (Hn : Z.to_nat (Z.quot (len (sub content 32 (len content))) 4) =
               (length (drop 32 (elems content)) / 4)%nat).
  { unfold len at 1. rewrite E2. change (Z.to_nat 32) with 32%nat.
    rewrite Z.quot_div_nonneg by lia.
    change 4 with (Z.of_nat 4). rewrite <- Nat2Z.inj_div. apply Nat2Z.id. }
  rewrite Hn, samples_loop_ok.
  2: lia.
  2: { pose proof (Nat.Div0.mul_div_le (length (drop 32 (elems content))) 4) as Hd.
       rewrite length_drop in *. unfold len in *. lia. }
  rewrite bind_ret_l. change (Z.to_nat (32 + 4 * 0)) with 32%nat.
  rewrite payload_take.
  set (data := Spec.payload (drop 32 (elems content))).
  rewrite list_from_ok by (rewrite length_app, length_preamble; lia).
  rewrite bind_ret_l. change (Z.to_nat 44) with 44%nat.
  match goal with |- context [drop 44 (Spec.preamble ?a ?b ?c ?d ++ ?p)] =>
    rewrite (drop_app_length' (Spec.preamble a b c d) p 44 (length_preamble a b c d))
  end.
  rewrite bind_emit_after, main_sizes_ok, bind_ret_l.
  destruct (write_ok e (output ++ "-iq.wav")) eqn:Hw2; [|reflexivity].
  rewrite bind_emit_after.
  destruct (close_ok e); reflexivity.
Qed.

Lemma main_io_short e output content :
  len content < 32 -> 32 <= cap content ->
  main_io e output content =
  after (crc_log (decoded (header32 content)) ++
         [Println (Header_String (decoded (header32 content)))])
    (if write_ok e (output ++ "-info.txt")%string
     then ([WriteFile "-info.txt" (Text (Header_String (decoded (header32 content))))],
           Stop (Panic "slice bounds out of range"))
     else logrus_Fatal "error writing file").
Proof.
  intros H1 H2. unfold main_io. cbv zeta.
  rewrite main_header_ok by lia. rewrite bind_val_after.
  rewrite bind_emit_after, after_app. do 2 f_equal. unfold ioutil_WriteFile.
  destruct (write_ok e (output ++ "-info.txt")); [|reflexivity].
  rewrite bind_emit_after, main_waveHeader_ok, bind_ret_l.
  unfold slice_from. rewrite slice_range_bad by lia. reflexivity.
Qed.

Lemma main_io_no_header e output content :
  cap content < 32 ->
  main_io e output content = ([], Stop (Panic "slice bounds out of range")).
Proof.
  intros H. unfold main_io. rewrite main_header_short by assumption. reflexivity.
Qed.

Lemma main_run content :
  32 <= len content ->
  main content =
  after (crc_log (decoded (elems content)) ++
         [Println (Header_String (decoded (elems content)));
          WriteFile "-info.txt" (Text (Header_String (decoded (elems content))));
          Info "body samples length: "
            [Z.rem (Z.quot (Z.of_nat (length (Spec.payload (drop 32 (elems content))))) 2) 8];
          WriteFile "-iq.wav"
            (Bytes (container (SampleRate (decoded (elems content)))
                              (drop 32 (elems content))))])
    ([Info "done" []], Stop (Exit 0)).
Proof.
  intros H. rewrite main_ok by assumption. unfold after. cbn [fst snd].
  rewrite <- app_assoc. reflexivity.
Qed.

Lemma logged_app tr1 tr2 : logged (tr1 ++ tr2) = logged tr1 ++ logged tr2.
Proof.
  induction tr1 as [|ev tr1 IH]; [reflexivity|].
  destruct ev; simpl; rewrite ?IH; reflexivity.
Qed.

Lemma written_app tr1 tr2 : written (tr1 ++ tr2) = written tr1 ++ written tr2.
Proof.
  induction tr1 as [|ev tr1 IH]; [reflexivity|].
  destruct ev; simpl; rewrite ?IH; reflexivity.
Qed.

Lemma written_crc_log h : written (crc_log h) = [].
Proof. unfold crc_log. destruct (CRCValid h); reflexivity. Qed.

Lemma done_not_in_crc_log h : ~ In "done"%string (logged (crc_log h)).
Proof.
  unfold crc_log. destruct (CRCValid h); simpl; [tauto|].
  intros [E|[]]. discriminate E.
Qed.

Lemma payload_bytes_1_2 l : Spec.payload l = bytes_1_2 l.
Proof.
  induction l as [l Hl|b0 b1 b2 b3 rest IH] using list_ind4.
  - destruct l as [|? [|? [|? [|? ?]]]]; try reflexivity. simpl in Hl. lia.
  - cbn [Spec.payload bytes_1_2]. rewrite payload_group, IH. reflexivity.
Qed.

(** ** More properties of [main] *)

(** X5.  For every buffer of at least 32 bytes the data of the container
    that [main] writes are bytes 1 and 2 of every full 4-byte group after
    the header: byte 0 and byte 3 of a group, and a trailing partial group,
    never reach the output. *)
Theorem container_data_bytes_1_2 (content : slice) :
  32 <= len content ->
  exists pre,
    length pre = 44%nat /\
    writes "-iq.wav" (trace (main content)) =
      [Bytes (pre ++ bytes_1_2 (drop 32 (elems content)))].
Proof.
  intros H. eexists. split; [apply length_preamble|].
  rewrite main_writes_wav by assumption. unfold container. cbv zeta.
  rewrite payload_bytes_1_2 at 3. reflexivity.
Qed.

Lemma container_data_bytes_1_2_witness :
  32 <= len capture8000_noisy /\
  exists pre,
    length pre = 44%nat /\
    writes "-iq.wav" (trace (main capture8000_noisy)) =
      [Bytes (pre ++ bytes_1_2 (drop 32 (elems capture8000_noisy)))].
Proof.
  split; [vm_compute; discriminate|].
  apply (container_data_bytes_1_2 capture8000_noisy). vm_compute. discriminate.
Defined.

(** X6.  For every buffer of at least 32 bytes, the number logged with
    "body samples length: " is the number of full 4-byte sample groups
    modulo 8. *)
Theorem logged_sample_count (content : slice) :
  32 <= len content ->
  In (Info "body samples length: " [((len content - 32) / 4) mod 8])
     (trace (main content)).
Proof.
  intros H. rewrite main_ok by assumption. unfold trace. cbn [fst].
  apply in_or_app. right. right. right. left. do 2 f_equal.
  rewrite payload_length_Z, length_drop.
  assert (E : Z.of_nat (length (elems content) - 32) = len content - 32)
    by (unfold len in *; lia).
  rewrite E.
  assert (0 <= (len content - 32) / 4) by (apply Z.div_pos; lia).
  rewrite Z.quot_div_nonneg by lia. rewrite Z.div_mul by lia.
  apply Z.rem_mod_nonneg; lia.
Qed.

Lemma logged_sample_count_witness :
  32 <= len capture8000_noisy /\
  In (Info "body samples length: " [((len capture8000_noisy - 32) / 4) mod 8])
     (trace (main capture8000_noisy)).
Proof.
  split; [vm_compute; discriminate|].
  apply (logged_sample_count capture8000_noisy). vm_compute. discriminate.
Defined.

(** X7.  For a buffer of at least 32 bytes the whole run of [main], its
    trace and its ending, depends on the elements of the buffer only: the
    spare capacity of the slice plays no part. *)
Theorem capacity_irrelevant (content : slice) (other_spare : list byte) :
  32 <= len content ->
  main (mkSlice (elems content) other_spare) = main content.
Proof.
  intros H. rewrite (main_ok content) by assumption.
  rewrite main_ok by exact H. reflexivity.
Qed.

Lemma capacity_irrelevant_witness :
  32 <= len capture8000 /\
  main (mkSlice (elems capture8000) (repeat Byte.xff 480)) = main capture8000.
Proof.
  split; [vm_compute; discriminate|].
  apply (capacity_irrelevant capture8000). vm_compute. discriminate.
Defined.

Lemma crc_byte_range c b : 0 <= c < 2 ^ 32 -> 0 <= Spec.crc_byte c b < 2 ^ 32.
Proof.
  intros H. unfold Spec.crc_byte.
  assert (Hx : 0 <= Z.lxor c (byte.unsigned b) < 2 ^ 32).
  { apply lxor_bound; [lia|assumption|]. pose proof (byte.unsigned_range b). lia. }
  revert Hx. generalize (Z.lxor c (byte.unsigned b)). intros x Hx.
  generalize 8%nat. intros n.
  induction n as [|n IH]; [exact Hx|]. simpl. apply crc_bit_range, IH.
Qed.

Lemma crc32_range msg : 0 <= Spec.crc32 msg < 2 ^ 32.
Proof.
  unfold Spec.crc32. apply lxor_bound; [lia| |lia].
  assert (H : 0 <= 4294967295 < 2 ^ 32) by lia.
  revert H. generalize 4294967295. induction msg as [|b msg IH]; intros c Hc.
  - exact Hc.
  - cbn [fold_left]. apply IH, crc_byte_range, Hc.
Qed.

(** X8.  A header whose bytes [28:32) are the little-endian CRC-32 of its
    first 28 bytes, as [crc32.ChecksumIEEE] computes it, is accepted: the
    decoded header has crc_valid true, its stored CRC is that checksum, and
    no "CRC mismatch" line is logged, whatever follows the header. *)
Theorem header_with_checksum_is_valid (h28 rest sp : list byte) :
  length h28 = 28%nat ->
  let crc := crc32.ChecksumIEEE (mkSlice h28 []) in
  exists h,
    main_header (mkSlice (h28 ++ le_split 4 crc ++ rest) sp) = ([], Val h) /\
    CRCValid h = true /\
    CRC h = crc.
Proof.
  intros H28 crc.
  set (content := mkSlice (h28 ++ le_split 4 crc ++ rest) sp).
  assert (Hlen : 32 <= len content).
  { unfold len, content. cbn [elems]. rewrite !length_app, length_le_split. lia. }
  pose proof (len_cap content) as Hc.
  assert (Ecrc : crc = Spec.crc32 h28).
  { unfold crc, crc32.ChecksumIEEE. cbn [elems]. apply simpleUpdate_IEEE. }
  assert (E28 : Spec.bytes_at 0 28 (elems content) = h28).
  { unfold Spec.bytes_at, content. cbn [elems]. rewrite drop_0.
    rewrite take_app_length' by lia. reflexivity. }
  assert (E32 : Spec.le 28 32 (elems content) = crc).
  { unfold Spec.le, Spec.bytes_at, content. cbn [elems].
    rewrite drop_app_length' by lia.
    rewrite take_app_length' by (rewrite length_le_split; lia).
    rewrite le_le_split4. apply Z.mod_small. rewrite Ecrc. apply crc32_range. }
  assert (Hv : CRCValid (decoded (elems content)) = true).
  { cbn [CRCValid decoded]. rewrite E28, E32, Ecrc. apply Z.eqb_refl. }
  exists (decoded (elems content)). split; [|split].
  - rewrite main_header_ok by lia.
    rewrite header32_elems, decoded_take by assumption.
    rewrite Hv. reflexivity.
  - exact Hv.
  - cbn [CRC decoded]. exact E32.
Qed.

Lemma header_with_checksum_is_valid_witness :
  length header8000 = 28%nat /\
  let crc := crc32.ChecksumIEEE (mkSlice header8000 []) in
  exists h,
    main_header (mkSlice (header8000 ++ le_split 4 crc ++ [Byte.x01; Byte.x02]) []) =
      ([], Val h) /\
    CRCValid h = true /\
    CRC h = crc.
Proof.
  split; [reflexivity|].
  apply (header_with_checksum_is_valid header8000 [Byte.x01; Byte.x02] []). reflexivity.
Defined.

(** X9.  Whatever the buffer, [main] writes no file other than the report
    "-info.txt" and the container "-iq.wav", each at most once and the
    report first: the container is never written without the report, and
    both are written exactly when the buffer has at least 32 bytes. *)
Theorem files_written_in_order (content : slice) :
  (written (trace (main content)) = [] \/
   written (trace (main content)) = ["-info.txt"%string] \/
   written (trace (main content)) = ["-info.txt"%string; "-iq.wav"%string]) /\
  (written (trace (main content)) = ["-info.txt"%string; "-iq.wav"%string] <->
   32 <= len content).
Proof.
  destruct (Z_lt_le_dec (len content) 32) as [Hs|Hl].
  - destruct (Z_lt_le_dec (cap content) 32) as [Hc|Hc].
    + rewrite main_no_header by assumption. unfold trace. cbn [fst written].
      split; [auto|]. split; [discriminate|lia].
    + rewrite main_short by assumption. unfold trace. cbn [fst].
      rewrite written_app, written_crc_log. cbn [written app].
      split; [auto|]. split; [discriminate|lia].
  - rewrite main_ok by assumption. unfold trace. cbn [fst].
    rewrite written_app, written_crc_log. cbn [written app].
    split; [auto|]. split; [intros _; exact Hl|reflexivity].
Qed.

(** ** [main] with its file operations *)

Lemma main_program_read e input output content :
  input <> ""%string -> files e input = Content content ->
  main_program e input output = main_io e output content.
Proof.
  intros Hi Hf. unfold main_program.
  apply String.eqb_neq in Hi. rewrite Hi, Hf. reflexivity.
Qed.

Lemma main_io_all_ok e output content :
  write_ok e (output ++ "-info.txt")%string = true ->
  write_ok e (output ++ "-iq.wav")%string = true ->
  close_ok e = true ->
  main_io e output content = main content.
Proof.
  intros H1 H2 H3.
  destruct (Z_lt_le_dec (len content) 32) as [Hs|Hl].
  - destruct (Z_lt_le_dec (cap content) 32) as [Hc|Hc].
    + rewrite main_io_no_header, main_no_header by assumption. reflexivity.
    + rewrite main_io_short, main_short by assumption. rewrite H1.
      unfold after. cbn [fst snd]. rewrite <- app_assoc. reflexivity.
  - rewrite main_io_ok, main_run by assumption. unfold main_io_run. cbv zeta.
    rewrite H1, H2, H3. unfold after. cbn [fst snd].
    rewrite <- !app_assoc. reflexivity.
Qed.



Lemma main_io_endings e output content :
  (32 <= len content /\
   write_ok e (output ++ "-info.txt")%string = true /\
   write_ok e (output ++ "-iq.wav")%string = true /\
   close_ok e = true /\
   ending (main_io e output content) = Stop (Exit 0) /\
   In "done"%string (logged (trace (main_io e output content)))) \/
  (~ (32 <= len content /\
      write_ok e (output ++ "-info.txt")%string = true /\
      write_ok e (output ++ "-iq.wav")%string = true /\
      close_ok e = true) /\
   (ending (main_io e output content) = Stop (Panic "slice bounds out of range") \/
    ending (main_io e output content) = Stop (Fatal "error writing file") \/
    ending (main_io e output content) = Stop (Fatal "error closing file")) /\
   ~ In "done"%string (logged (trace (main_io e output content)))).
Proof.
  destruct (Z_lt_le_dec (len content) 32) as [Hs|Hl].
  - right. split; [lia|].
    destruct (Z_lt_le_dec (cap content) 32) as [Hc|Hc].
    + rewrite main_io_no_header by assumption. cbn. tauto.
    + rewrite main_io_short by assumption.
      pose proof (done_not_in_crc_log (decoded (header32 content))) as Hd.
      destruct (write_ok e (output ++ "-info.txt"));
        unfold after, trace, ending, logrus_Fatal; cbn [fst snd];
        rewrite !logged_app, !in_app_iff; cbn; tauto.
  - rewrite main_io_ok by assumption. unfold main_io_run. cbv zeta.
    pose proof (done_not_in_crc_log (decoded (elems content))) as Hd.
    destruct (write_ok e (output ++ "-info.txt")) eqn:H1;
    [destruct (write_ok e (output ++ "-iq.wav")) eqn:H2;
     [destruct (close_ok e) eqn:H3|]|];
      unfold after, trace, ending, logrus_Fatal; cbn [fst snd];
      rewrite !logged_app, !in_app_iff; cbn;
      [left|right|right|right]; intuition (try discriminate; try congruence).
Qed.

(** X11.  The program exits with code 0 exactly when the input flag is set,
    the file is read and has at least 32 bytes, both writes succeed and the
    input file closes; and "done" is logged exactly when it exits with
    code 0. *)
Theorem exit_0_iff (e : env) (input output : string) :
  (ending (main_program e input output) = Stop (Exit 0) <->
   input <> ""%string /\
   exists content,
     files e input = Content content /\
     32 <= len content /\
     write_ok e (output ++ "-info.txt")%string = true /\
     write_ok e (output ++ "-iq.wav")%string = true /\
     close_ok e = true) /\
  (In "done"%string (logged (trace (main_program e input output))) <->
   ending (main_program e input output) = Stop (Exit 0)).
Proof.
  unfold main_program.
  destruct (String.eqb_spec input "") as [Hi|Hi].
  { split; split; cbn; try tauto; try discriminate; intros [H _]; contradiction. }
  destruct (files e input) as [| |content] eqn:Hf.
  1, 2: split; split; cbn; try tauto; try discriminate;
        intros (_ & c & Hc & _); discriminate Hc.
  destruct (main_io_endings e output content)
    as [(H1 & H2 & H3 & H4 & H5 & H6)|(Hn & H5 & H6)].
  - split; split; try tauto. intros _. split; [assumption|]. exists content. tauto.
  - split; split.
    + intros E. rewrite E in H5. destruct H5 as [H5|[H5|H5]]; discriminate H5.
    + intros (_ & c & Hc & Hrest). injection Hc as <-. tauto.
    + tauto.
    + intros E. rewrite E in H5. destruct H5 as [H5|[H5|H5]]; discriminate H5.
Qed.

(** X12.  The three failures before any output: the program ends with
    "input file is required" exactly when the input flag is empty, with
    "error opening file" exactly when the flag is set and the file cannot be
    opened, and with "error reading file" exactly when it is opened and
    cannot be read; in these three cases nothing is printed, logged or
    written. *)
Theorem fatal_before_output (e : env) (input output : string) :
  (ending (main_program e input output) = Stop (Fatal "input file is required") <->
   input = ""%string) /\
  (ending (main_program e input output) = Stop (Fatal "error opening file") <->
   input <> ""%string /\ files e input = OpenError) /\
  (ending (main_program e input output) = Stop (Fatal "error reading file") <->
   input <> ""%string /\ files e input = ReadError) /\
  (input = ""%string \/ files e input = OpenError \/ files e input = ReadError ->
   trace (main_program e input output) = []).
Proof.
  unfold main_program.
  destruct (String.eqb_spec input "") as [Hi|Hi].
  { repeat split; cbn; try tauto; try discriminate; intros [H _]; contradiction. }
  destruct (files e input) as [| |content] eqn:Hf.
  1, 2: repeat split; cbn; try tauto; try discriminate;
        try (intros [_ H]; discriminate H); intros [H|[H|H]]; congruence.
  assert (H5 : ending (main_io e output content) = Stop (Exit 0) \/
               ending (main_io e output content) = Stop (Panic "slice bounds out of range") \/
               ending (main_io e output content) = Stop (Fatal "error writing file") \/
               ending (main_io e output content) = Stop (Fatal "error closing file")).
  { destruct (main_io_endings e output content)
      as [(_ & _ & _ & _ & H5 & _)|(_ & H5 & _)]; tauto. }
  destruct H5 as [H5|[H5|[H5|H5]]]; rewrite H5;
    (repeat split; try discriminate; try tauto;
     try (intros [_ H]; discriminate H); intros [H|[H|H]]; congruence).
Qed.

(** X13.  If the report is written and writing the container fails, the
    program ends with "error writing file" and leaves the report file
    behind without a container: the report is the one of a successful run,
    the container is not written and "done" is not logged. *)
Theorem container_write_failure (e : env) (input output : string) (content : slice) :
  input <> ""%string ->
  files e input = Content content ->
  32 <= len content ->
  write_ok e (output ++ "-info.txt")%string = true ->
  write_ok e (output ++ "-iq.wav")%string = false ->
  ending (main_program e input output) = Stop (Fatal "error writing file") /\
  written (trace (main_program e input output)) = ["-info.txt"%string] /\
  writes "-info.txt" (trace (main_program e input output)) =
    writes "-info.txt" (trace (main content)) /\
  ~ In "done"%string (logged (trace (main_program e input output))).
Proof.
  intros Hi Hf Hl H1 H2.
  rewrite (main_program_read e input output content Hi Hf).
  rewrite main_writes_info by assumption.
  rewrite main_io_ok by assumption. unfold main_io_run. cbv zeta.
  rewrite H1, H2. unfold after, trace, ending, logrus_Fatal. cbn [fst snd].
  pose proof (done_not_in_crc_log (decoded (elems content))) as Hd.
  rewrite !written_app, !writes_app, !logged_app, written_crc_log, writes_crc_log.
  rewrite !in_app_iff. cbn.
  repeat split; intuition discriminate.
Qed.

Lemma container_write_failure_witness :
  "in.sdriq"%string <> ""%string /\
  files (env_with capture8000 true false true) "in.sdriq" = Content capture8000 /\
  32 <= len capture8000 /\
  write_ok (env_with capture8000 true false true) ("./raw" ++ "-info.txt")%string = true /\
  write_ok (env_with capture8000 true false true) ("./raw" ++ "-iq.wav")%string = false /\
  ending (main_program (env_with capture8000 true false true) "in.sdriq" "./raw")
    = Stop (Fatal "error writing file") /\
  written (trace (main_program (env_with capture8000 true false true) "in.sdriq" "./raw"))
    = ["-info.txt"%string] /\
  writes "-info.txt"
    (trace (main_program (env_with capture8000 true false true) "in.sdriq" "./raw")) =
    writes "-info.txt" (trace (main capture8000)) /\
  ~ In "done"%string
      (logged (trace (main_program (env_with capture8000 true false true)
                                   "in.sdriq" "./raw"))).
Proof.
  split; [discriminate|]. split; [reflexivity|]. split; [vm_compute; discriminate|].
  do 2 (split; [reflexivity|]).
  apply (container_write_failure (env_with capture8000 true false true) "in.sdriq" "./raw"
           capture8000);
    [discriminate|reflexivity|vm_compute; discriminate|reflexivity|reflexivity].
Defined.

(** X14.  If writing the report fails, the program ends with "error writing
    file" after printing the report: no file is written, and the samples
    are not processed (nothing is logged about them). *)
Theorem report_write_failure (e : env) (input output : string) (content : slice) :
  input <> ""%string ->
  files e input = Content content ->
  32 <= cap content ->
  write_ok e (output ++ "-info.txt")%string = false ->
  ending (main_program e input output) = Stop (Fatal "error writing file") /\
  written (trace (main_program e input output)) = [] /\
  printed (trace (main_program e input output)) = printed (trace (main content)) /\
  ~ In "body samples length: "%string (logged (trace (main_program e input output))).
Proof.
  intros Hi Hf Hc H1.
  rewrite (main_program_read e input output content Hi Hf).
  assert (Hlog : forall h, ~ In "body samples length: "%string (logged (crc_log h))).
  { intros h. unfold crc_log. destruct (CRCValid h); cbn; [tauto|].
    intros [E|[]]. discriminate E. }
  destruct (Z_lt_le_dec (len content) 32) as [Hs|Hl].
  - rewrite main_io_short, main_short by assumption. rewrite H1.
    unfold after, trace, ending, logrus_Fatal. cbn [fst snd].
    rewrite !written_app, !printed_app, !logged_app, written_crc_log.
    rewrite !in_app_iff. cbn. specialize (Hlog (decoded (header32 content))).
    rewrite app_nil_r. repeat split; tauto.
  - rewrite main_io_ok, main_ok by assumption. unfold main_io_run. cbv zeta. rewrite H1.
    unfold after, trace, ending, logrus_Fatal. cbn [fst snd].
    rewrite !written_app, !printed_app, !logged_app, written_crc_log.
    rewrite !in_app_iff. cbn. specialize (Hlog (decoded (elems content))).
    rewrite app_nil_r. repeat split; tauto.
Qed.

Lemma report_write_failure_witness :
  "in.sdriq"%string <> ""%string /\
  files (env_with capture8000 false true true) "in.sdriq" = Content capture8000 /\
  32 <= cap capture8000 /\
  write_ok (env_with capture8000 false true true) ("./raw" ++ "-info.txt")%string = false /\
  ending (main_program (env_with capture8000 false true true) "in.sdriq" "./raw")
    = Stop (Fatal "error writing file") /\
  written (trace (main_program (env_with capture8000 false true true) "in.sdriq" "./raw"))
    = [] /\
  printed (trace (main_program (env_with capture8000 false true true) "in.sdriq" "./raw"))
    = printed (trace (main capture8000)) /\
  ~ In "body samples length: "%string
      (logged (trace (main_program (env_with capture8000 false true true)
                                   "in.sdriq" "./raw"))).
Proof.
  split; [discriminate|]. split; [reflexivity|]. split; [vm_compute; discriminate|].
  split; [reflexivity|].
  apply (report_write_failure (env_with capture8000 false true true) "in.sdriq" "./raw"
           capture8000);
    [discriminate|reflexivity|vm_compute; discriminate|reflexivity].
Defined.

(** X15.  If both files are written and closing the input file fails, the
    program ends with "error closing file" and does not log "done", although
    the report and the container written are those of a successful run. *)
Theorem close_failure (e : env) (input output : string) (content : slice) :
  input <> ""%string ->
  files e input = Content content ->
  32 <= len content ->
  write_ok e (output ++ "-info.txt")%string = true ->
  write_ok e (output ++ "-iq.wav")%string = true ->
  close_ok e = false ->
  ending (main_program e input output) = Stop (Fatal "error closing file") /\
  writes "-info.txt" (trace (main_program e input output)) =
    writes "-info.txt" (trace (main content)) /\
  writes "-iq.wav" (trace (main_program e input output)) =
    writes "-iq.wav" (trace (main content)) /\
  ~ In "done"%string (logged (trace (main_program e input output))).
Proof.
  intros Hi Hf Hl H1 H2 H3.
  rewrite (main_program_read e input output content Hi Hf).
  rewrite main_writes_info, main_writes_wav by assumption.
  rewrite main_io_ok by assumption. unfold main_io_run. cbv zeta.
  rewrite H1, H2, H3. unfold after, trace, ending, logrus_Fatal. cbn [fst snd].
  pose proof (done_not_in_crc_log (decoded (elems content))) as Hd.
  rewrite !writes_app, !logged_app, !writes_crc_log.
  rewrite !in_app_iff. cbn.
  repeat split; intuition discriminate.
Qed.

Lemma close_failure_witness :
  "in.sdriq"%string <> ""%string /\
  files (env_with capture8000 true true false) "in.sdriq" = Content capture8000 /\
  32 <= len capture8000 /\
  write_ok (env_with capture8000 true true false) ("./raw" ++ "-info.txt")%string = true /\
  write_ok (env_with capture8000 true true false) ("./raw" ++ "-iq.wav")%string = true /\
  close_ok (env_with capture8000 true true false) = false /\
  ending (main_program (env_with capture8000 true true false) "in.sdriq" "./raw")
    = Stop (Fatal "error closing file") /\
  writes "-info.txt"
    (trace (main_program (env_with capture8000 true true false) "in.sdriq" "./raw")) =
    writes "-info.txt" (trace (main capture8000)) /\
  writes "-iq.wav"
    (trace (main_program (env_with capture8000 true true false) "in.sdriq" "./raw")) =
    writes "-iq.wav" (trace (main capture8000)) /\
  ~ In "done"%string
      (logged (trace (main_program (env_with capture8000 true true false)
                                   "in.sdriq" "./raw"))).
Proof.
  split; [discriminate|]. split; [reflexivity|]. split; [vm_compute; discriminate|].
  do 3 (split; [reflexivity|]).
  apply (close_failure (env_with capture8000 true true false) "in.sdriq" "./raw"
           capture8000);
    [discriminate|reflexivity|vm_compute; discriminate|reflexivity..].
Defined.
